(** * Group entities: membership tracking and state aggregation

    A shallow embedding of [homeassistant/components/group/entity.py]:
    the [Group] class (membership partition, per-member caches, aggregate
    recomputation, subscription lifecycle) and the preview path of the
    abstract [GroupEntity] class, together with the properties of the
    design document that concern them.

    Python dictionaries are finite maps ([gmap]), Python sets are finite
    sets ([gset]), tuples and lists are lists.  Methods that mutate [self]
    take the group and return the updated group; methods that also touch
    the host ([hass]) thread the host as well. *)

From Stdlib Require Import Ascii String.
From stdpp Require Import base option list gmap sets strings.

Open Scope string_scope.
Open Scope list_scope.

(** ** Constants of [homeassistant.const] *)

Definition STATE_ON : string := "on".
Definition STATE_OFF : string := "off".
Definition STATE_UNKNOWN : string := "unknown".
Definition ATTR_ASSUMED_STATE : string := "assumed_state".

(** [DOMAIN] of the group component; [ENTITY_ID_FORMAT] files every group
    under it. *)
Definition DOMAIN : string := "group".

(** ** Member states

    A [State] object of the state machine.  The code only ever tests
    attribute values for truthiness, so an attribute is kept as its truth
    value. *)

Record State := mkState {
  entity_id : string;
  domain : string;
  state : string;
  attributes : gmap string bool
}.

(** [new_state.attributes.get(ATTR_ASSUMED_STATE)], as a condition. *)
Definition attr_assumed_state (s : State) : bool :=
  default false (attributes s !! ATTR_ASSUMED_STATE).

(** ** The registry *)

(** Modelled from the spec: the tables of [GroupIntegrationRegistry]
    ([registry.py] is not among the sources); the field types are those of
    the data model, [onOffMapping] being a table from label to boolean. *)
Record GroupIntegrationRegistry := mkRegistry {
  on_states_by_domain : gmap string (gset string);
  on_off_mapping : gmap string bool;
  off_on_mapping : gmap string string;
  off_state_by_domain : gmap string string;
  exclude_domains : gset string
}.

(** ** The host

    [CALLBACK_TYPE] is the disposer returned by a subscription; it is
    identified by the token of the subscription it cancels. *)

Definition CALLBACK_TYPE := nat.
Definition Context := nat.

(** Which callback a subscription delivers to. *)
Inductive Listener :=
  | GroupListener       (* Group._async_state_changed_listener *)
  | CommittedListener   (* the listener of GroupEntity.async_added_to_hass *)
  | PreviewListener.    (* the listener of GroupEntity.async_start_preview *)

Record Subscription := mkSub {
  sub_handle : CALLBACK_TYPE;
  sub_entity_ids : list string;
  sub_listener : Listener
}.

Record HomeAssistant := mkHass {
  states : list State;                  (* hass.states *)
  registry : GroupIntegrationRegistry;  (* hass.data[REG_KEY] *)
  is_running : bool;                    (* hass.is_running *)
  subscriptions : list Subscription     (* live state-change subscriptions *)
}.

(** Modelled from the spec: [getCurrentState(entityId) -> State?] of the
    state store ([hass.states.get]): the state filed under that id, if
    any. *)
Definition states_get (hass : HomeAssistant) (eid : string) : option State :=
  List.find (fun s => String.eqb (entity_id s) eid) (states hass).

Definition set_states (sts : list State) (hass : HomeAssistant) : HomeAssistant :=
  {| states := sts; registry := registry hass; is_running := is_running hass;
     subscriptions := subscriptions hass |}.

Definition set_subscriptions (subs : list Subscription) (hass : HomeAssistant)
  : HomeAssistant :=
  {| states := states hass; registry := registry hass;
     is_running := is_running hass; subscriptions := subs |}.

(** The largest token among the live subscriptions, and a token none of
    them carries. *)
Definition max_handle (subs : list Subscription) : CALLBACK_TYPE :=
  foldr Nat.max 0 (map sub_handle subs).

Definition fresh_handle (subs : list Subscription) : CALLBACK_TYPE :=
  S (max_handle subs).

(** Modelled from the spec: [subscribe(entityIds, onChange) -> Handle] of
    the state store ([async_track_state_change_event] lives in
    [helpers/event.py]).  The subscription is filed under a fresh token,
    which is the handle returned. *)
Definition async_track_state_change_event
    (hass : HomeAssistant) (ids : list string) (l : Listener)
  : HomeAssistant * CALLBACK_TYPE :=
  let h := fresh_handle (subscriptions hass) in
  (set_subscriptions (subscriptions hass ++ [mkSub h ids l]) hass, h).

(** Modelled from the spec: calling the handle releases the subscription
    it was returned for, and no other. *)
Definition call_unsub (h : CALLBACK_TYPE) (hass : HomeAssistant) : HomeAssistant :=
  set_subscriptions
    (List.filter (fun s => negb (Nat.eqb (sub_handle s) h)) (subscriptions hass))
    hass.

(** Modelled from the spec: publishing an entity's state
    ([Entity.async_write_ha_state] lives in [helpers/entity.py]): the state
    filed under the entity's id is replaced by the one published. *)
Definition async_write_ha_state (published : State) (hass : HomeAssistant)
  : HomeAssistant :=
  set_states
    (published
       :: List.filter
            (fun s => negb (String.eqb (entity_id s) (entity_id published)))
            (states hass))
    hass.

(** ** The group *)

(** [self.mode] is the builtin [any] or [all]. *)
Inductive Mode := mode_any | mode_all.

Definition apply_mode (m : Mode) (vals : list bool) : bool :=
  match m with
  | mode_any => existsb (fun b => b) vals
  | mode_all => forallb (fun b => b) vals
  end.

(** [d.values()] of a dictionary of booleans. *)
Definition values (d : gmap string bool) : list bool := (map_to_list d).*2.

Record Group := mkGroup {
  group_entity_id : string;             (* self.entity_id *)
  _state : option string;
  tracking : list string;
  trackable : list string;
  single_active_domain : option string;
  _on_off : gmap string bool;
  _assumed : gmap string bool;
  _on_states : gset string;
  mode : Mode;
  _assumed_state : bool;
  _async_unsub_state_changed : option CALLBACK_TYPE;
  _context : option Context             (* set by async_set_context *)
}.

Definition with_state (v : option string) (g : Group) : Group :=
  mkGroup (group_entity_id g) v (tracking g) (trackable g)
    (single_active_domain g) (_on_off g) (_assumed g) (_on_states g) (mode g)
    (_assumed_state g) (_async_unsub_state_changed g) (_context g).

Definition with_tracked (tg tb : list string) (sad : option string) (g : Group)
  : Group :=
  mkGroup (group_entity_id g) (_state g) tg tb sad (_on_off g) (_assumed g)
    (_on_states g) (mode g) (_assumed_state g) (_async_unsub_state_changed g)
    (_context g).

Definition with_caches
    (oo asm : gmap string bool) (ons : gset string) (g : Group) : Group :=
  mkGroup (group_entity_id g) (_state g) (tracking g) (trackable g)
    (single_active_domain g) oo asm ons (mode g) (_assumed_state g)
    (_async_unsub_state_changed g) (_context g).

Definition with_assumed_state (b : bool) (g : Group) : Group :=
  mkGroup (group_entity_id g) (_state g) (tracking g) (trackable g)
    (single_active_domain g) (_on_off g) (_assumed g) (_on_states g) (mode g)
    b (_async_unsub_state_changed g) (_context g).

Definition with_unsub (h : option CALLBACK_TYPE) (g : Group) : Group :=
  mkGroup (group_entity_id g) (_state g) (tracking g) (trackable g)
    (single_active_domain g) (_on_off g) (_assumed g) (_on_states g) (mode g)
    (_assumed_state g) h (_context g).

Definition async_set_context (c : Context) (g : Group) : Group :=
  mkGroup (group_entity_id g) (_state g) (tracking g) (trackable g)
    (single_active_domain g) (_on_off g) (_assumed g) (_on_states g) (mode g)
    (_assumed_state g) (_async_unsub_state_changed g) (Some c).

(** Truthiness of an optional string: [None] and the empty string are
    false. *)
Definition truthy (o : option string) : bool :=
  match o with
  | Some s => negb (String.eqb s "")
  | None => false
  end.


(** *** Observing a member: [_see_state] *)

(** [key in d] for a dictionary. *)
Definition has_key {V} (d : gmap string V) (k : string) : bool :=
  bool_decide (is_Some (d !! k)).

Definition _see_state (hass : HomeAssistant) (new_state : State) (g : Group)
  : Group :=
  let eid := entity_id new_state in
  let dmn := domain new_state in
  let st := state new_state in
  let reg := registry hass in
  let assumed' := <[eid := attr_assumed_state new_state]> (_assumed g) in
  match on_states_by_domain reg !! dmn with
  | None =>
      (* Handle the group of a group case *)
      let on_states' :=
        if has_key (on_off_mapping reg) st then {[st]} ∪ _on_states g
        else match off_on_mapping reg !! st with
             | Some on_label => {[on_label]} ∪ _on_states g
             | None => _on_states g
             end in
      with_caches (<[eid := has_key (on_off_mapping reg) st]> (_on_off g))
        assumed' on_states' g
  | Some entity_on_state =>
      with_caches (<[eid := bool_decide (st ∈ entity_on_state)]> (_on_off g))
        assumed' (_on_states g ∪ entity_on_state) g
  end.

(** *** Full reset: [_reset_tracked_state] *)

(** The body of [for entity_id in self.trackable]. *)
Definition reset_step (hass : HomeAssistant) (g : Group) (eid : string) : Group :=
  match states_get hass eid with
  | Some st => _see_state hass st g
  | None => g
  end.

Definition _reset_tracked_state (hass : HomeAssistant) (g : Group) : Group :=
  foldl (reset_step hass) (with_caches ∅ ∅ ∅ g) (trackable g).

(** *** Specific-label detection: [_detect_specific_on_off_state] *)

(** [(domain_on_states := registry.on_states_by_domain.get(state.domain))
     and current_state in domain_on_states] *)
Definition in_domain_on_states (reg : GroupIntegrationRegistry) (st : State)
  : bool :=
  match on_states_by_domain reg !! domain st with
  | Some domain_on_states =>
      bool_decide (domain_on_states ≠ ∅)
      && bool_decide (state st ∈ domain_on_states)
  | None => false
  end.

(** The loop over the trackable members, with its [break]; the pair is
    [(active_on_states, active_off_states)]. *)
Fixpoint detect_loop (hass : HomeAssistant) (group_is_on : bool)
    (ids : list string) (active_on_states active_off_states : gset string)
  : gset string * gset string :=
  match ids with
  | [] => (active_on_states, active_off_states)
  | eid :: rest =>
      match states_get hass eid with
      | None => detect_loop hass group_is_on rest active_on_states active_off_states
      | Some st =>
          let current_state := state st in
          if group_is_on && in_domain_on_states (registry hass) st then
            let on' := {[current_state]} ∪ active_on_states in
            if decide (1 < size on') then (on', active_off_states)
            else detect_loop hass group_is_on rest on' active_off_states
          else if has_key (off_on_mapping (registry hass)) current_state then
            detect_loop hass group_is_on rest active_on_states
              ({[current_state]} ∪ active_off_states)
          else detect_loop hass group_is_on rest active_on_states active_off_states
      end
  end.

Definition _detect_specific_on_off_state
    (hass : HomeAssistant) (group_is_on : bool) (g : Group) : gset string :=
  let r := detect_loop hass group_is_on (trackable g) ∅ ∅ in
  if group_is_on then r.1 else r.2.

(** *** Recompute: [_async_update_group_state] *)

(** Reading a local that no branch assigned raises. *)
Inductive result (A : Type) :=
  | Ok (a : A)
  | UnboundLocalError.
Arguments Ok {A} a.
Arguments UnboundLocalError {A}.

Definition read_local (v : option string) : result string :=
  match v with
  | Some x => Ok x
  | None => UnboundLocalError
  end.

(** [list(s)[0] if len(s) == 1 else dflt] *)
Definition only_or (s : gset string) (dflt : string) : string :=
  match elements s with
  | [x] => x
  | _ => dflt
  end.

(** The assumed-state update of the recompute. *)
Definition update_assumed_state (tr_state : option State) (g : Group) : Group :=
  match tr_state with
  | None =>
      with_assumed_state (apply_mode (mode g) (values (_assumed g))) g
  | Some tr =>
      if _assumed_state g && negb (attr_assumed_state tr) then
        with_assumed_state (apply_mode (mode g) (values (_assumed g))) g
      else if attr_assumed_state tr then with_assumed_state true g
      else g
  end.

(** The local [on_state] after the three branches; [None] when no branch
    assigned it.  [next(iter(s))] is the first element in iteration
    order. *)
Definition on_state_local (hass : HomeAssistant) (g : Group)
    (group_is_on : bool) : option string :=
  let num_on_states := size (_on_states g) in
  if decide (num_on_states = 1) then head (elements (_on_states g))
  else if truthy (single_active_domain g) && bool_decide (num_on_states ≠ 0)
  then Some (only_or (_detect_specific_on_off_state hass true g) STATE_ON)
  else if group_is_on then Some STATE_ON
  else None.

(** [(active_domain := self.single_active_domain)
     and active_domain in registry.off_state_by_domain], with the label
    looked up. *)
Definition domain_off_state (reg : GroupIntegrationRegistry)
    (sad : option string) : option string :=
  if truthy sad then sad ≫= (λ d, off_state_by_domain reg !! d) else None.

(** The group-off branch. *)
Definition off_state_of (hass : HomeAssistant) (g : Group) : string :=
  match domain_off_state (registry hass) (single_active_domain g) with
  | Some off_label => off_label
  | None => only_or (_detect_specific_on_off_state hass false g) STATE_OFF
  end.

(** Everything after the on-label determination, given the local. *)
Definition finish_update (hass : HomeAssistant) (g : Group)
    (group_is_on : bool) (on_state : option string) : result Group :=
  if group_is_on then
    match read_local on_state with
    | Ok l => Ok (with_state (Some l) g)
    | UnboundLocalError => UnboundLocalError
    end
  else Ok (with_state (Some (off_state_of hass g)) g).

(** [if tr_state: self._see_state(tr_state)] *)
Definition see_changed (hass : HomeAssistant) (tr_state : option State)
    (g : Group) : Group :=
  match tr_state with
  | Some tr => _see_state hass tr g
  | None => g
  end.

Definition _async_update_group_state
    (hass : HomeAssistant) (tr_state : option State) (g : Group)
  : result Group :=
  let g1 := see_changed hass tr_state g in
  if decide (_on_off g1 = ∅) then Ok g1
  else
    let g2 := update_assumed_state tr_state g1 in
    if decide (size (_on_states g2) = 0) then Ok (with_state None g2)
    else
      let group_is_on := apply_mode (mode g2) (values (_on_off g2)) in
      finish_update hass g2 group_is_on (on_state_local hass g2 group_is_on).

(** [async_update_group_state]: query all members and determine the
    current group state. *)
Definition async_update_group_state (hass : HomeAssistant) (g : Group)
  : result Group :=
  _async_update_group_state hass None (with_state None g).

(** *** Subscription lifecycle *)

Definition group_attributes (g : Group) : gmap string bool :=
  if _assumed_state g then {[ATTR_ASSUMED_STATE := true]} else ∅.

(** [self.async_write_ha_state()]; an unknown state is published as
    [STATE_UNKNOWN]. *)
Definition write_group_state (hass : HomeAssistant) (g : Group) : HomeAssistant :=
  async_write_ha_state
    (mkState (group_entity_id g) DOMAIN (default STATE_UNKNOWN (_state g))
       (group_attributes g))
    hass.

Definition _async_start_tracking (hass : HomeAssistant) (g : Group)
  : result (HomeAssistant * Group) :=
  let '(hass1, g1) :=
    match trackable g, _async_unsub_state_changed g with
    | _ :: _, None =>
        let '(hass', h) :=
          async_track_state_change_event hass (trackable g) GroupListener in
        (hass', with_unsub (Some h) g)
    | _, _ => (hass, g)
    end in
  match _async_update_group_state hass1 None g1 with
  | Ok g2 => Ok (hass1, g2)
  | UnboundLocalError => UnboundLocalError
  end.

Definition _async_start (hass : HomeAssistant) (g : Group)
  : result (HomeAssistant * Group) :=
  match _async_start_tracking hass (_reset_tracked_state hass g) with
  | Ok (hass1, g1) => Ok (write_group_state hass1 g1, g1)
  | UnboundLocalError => UnboundLocalError
  end.

Definition _async_stop (hass : HomeAssistant) (g : Group)
  : HomeAssistant * Group :=
  match _async_unsub_state_changed g with
  | Some unsub => (call_unsub unsub hass, with_unsub None g)
  | None => (hass, g)
  end.

(** A state-change notification: [event.data] and [event.context]. *)
Record Event := mkEvent {
  ev_entity_id : string;
  ev_new_state : option State;
  ev_context : Context
}.

Definition _async_state_changed_listener
    (hass : HomeAssistant) (event : Event) (g : Group)
  : result (HomeAssistant * Group) :=
  match _async_unsub_state_changed g with
  | None => Ok (hass, g)   (* removed *)
  | Some _ =>
      let g1 := async_set_context (ev_context event) g in
      let g2 := match ev_new_state event with
                | None => _reset_tracked_state hass g1
                | Some _ => g1
                end in
      match _async_update_group_state hass (ev_new_state event) g2 with
      | Ok g3 => Ok (write_group_state hass g3, g3)
      | UnboundLocalError => UnboundLocalError
      end
  end.

(** *** Membership: [_set_tracked] *)

Section MembershipTracker.

(** [str.lower] and [split_entity_id] (of [homeassistant.core]) are taken
    as given. *)
Variable str_lower : string → string.
Variable split_entity_id : string → string * string.

(** The locals of the loop, with [self.single_active_domain]. *)
Record tracked_acc := mkAcc {
  acc_tracking : list string;
  acc_trackable : list string;
  acc_single : option string;
  acc_multiple : bool
}.

(** One iteration of [for ent_id in entity_ids]. *)
Definition set_tracked_step (excluded : gset string)
    (acc : tracked_acc) (ent_id : string) : tracked_acc :=
  let ent_id_lower := str_lower ent_id in
  let dmn := (split_entity_id ent_id_lower).1 in
  let tracking' := acc_tracking acc ++ [ent_id_lower] in
  if decide (dmn ∈ excluded) then
    mkAcc tracking' (acc_trackable acc) (acc_single acc) (acc_multiple acc)
  else
    let trackable' := acc_trackable acc ++ [ent_id_lower] in
    let single1 :=
      if negb (acc_multiple acc) && bool_decide (acc_single acc = None)
      then Some dmn else acc_single acc in
    if decide (single1 ≠ Some dmn)
    then mkAcc tracking' trackable' None true
    else mkAcc tracking' trackable' single1 (acc_multiple acc).

Definition _set_tracked (hass : HomeAssistant)
    (entity_ids : option (list string)) (g : Group) : Group :=
  match entity_ids with
  | None | Some [] => with_tracked [] [] None g
  | Some ids =>
      let excluded_domains := exclude_domains (registry hass) in
      let acc :=
        foldl (set_tracked_step excluded_domains) (mkAcc [] [] None false) ids in
      with_tracked (acc_tracking acc) (acc_trackable acc) (acc_single acc) g
  end.

(** [Group.__init__]: [mode] is [all] when the flag is truthy, [any]
    otherwise. *)
Definition Group_init (hass : HomeAssistant) (eid : string)
    (entity_ids : option (list string)) (mode_flag : option bool) : Group :=
  _set_tracked hass entity_ids
    (mkGroup eid None [] [] None ∅ ∅ ∅
       (if default false mode_flag then mode_all else mode_any)
       false None None).

(** [async_update_tracked_entity_ids]: membership replacement. *)
Definition async_update_tracked_entity_ids (hass : HomeAssistant)
    (entity_ids : option (list string)) (g : Group)
  : result (HomeAssistant * Group) :=
  let '(hass1, g1) := _async_stop hass g in
  let g2 := _set_tracked hass1 entity_ids g1 in
  let g3 := _reset_tracked_state hass1 g2 in
  _async_start hass1 g3.

(** What the pair [(single_active_domain, multiple_domains)] records
    about the trackable members seen so far. *)
Definition acc_inv (acc : tracked_acc) : Prop :=
  match acc_single acc, acc_multiple acc with
  | Some d, false =>
      acc_trackable acc ≠ [] ∧ Forall (λ x, (split_entity_id x).1 = d) (acc_trackable acc)
  | None, false => acc_trackable acc = []
  | None, true =>
      ∃ x y, x ∈ acc_trackable acc ∧ y ∈ acc_trackable acc
             ∧ (split_entity_id x).1 ≠ (split_entity_id y).1
  | Some _, true => False
  end.

End MembershipTracker.

(** ** [GroupEntity]: the abstract base class and its preview path *)

Module GroupEntity.

(** What [Entity._async_calculate_state] returns. *)
Record CalculatedState := mkCalculated {
  cs_state : string;
  cs_attributes : gmap string bool
}.

(** A concrete group entity supplies its member ids, the required
    override [async_update_group_state], the hook
    [async_update_supported_features], and the state calculation it
    inherits from [Entity].  The override reads the live member states and
    updates the entity's own fields. *)
Class Impl (E : Type) := {
  entity_id_of : E → string;
  domain_of : E → string;
  _entity_ids : E → list string;
  async_update_group_state : HomeAssistant → E → E;
  async_update_supported_features : string → option State → E → E;
  _async_calculate_state : E → CalculatedState
}.

Section Preview.
Context {E : Type} `{Impl E}.

(** The host, the entity, and what the caller's [preview_callback] has
    been told so far. *)
Record World := mkWorld {
  w_hass : HomeAssistant;
  w_entity : E;
  w_reported : list CalculatedState
}.

(** The loop that opens both [async_start_preview] and
    [async_added_to_hass]. *)
Definition update_features_from_states (hass : HomeAssistant) (e : E) : E :=
  foldl
    (fun e eid =>
       match states_get hass eid with
       | None => e
       | Some st => async_update_supported_features eid (Some st) e
       end)
    e (_entity_ids e).

(** The listener defined inside [async_start_preview]. *)
Definition preview_listener (event : option Event) (w : World) : World :=
  let e1 := async_update_group_state (w_hass w) (w_entity w) in
  let e2 := match event with
            | Some ev =>
                async_update_supported_features
                  (ev_entity_id ev) (ev_new_state ev) e1
            | None => e1
            end in
  let calculated_state := _async_calculate_state e2 in
  mkWorld (w_hass w) e2 (w_reported w ++ [calculated_state]).

Definition async_start_preview (w : World) : World * CALLBACK_TYPE :=
  let e1 := update_features_from_states (w_hass w) (w_entity w) in
  let w1 := preview_listener None (mkWorld (w_hass w) e1 (w_reported w)) in
  let '(hass', h) :=
    async_track_state_change_event
      (w_hass w1) (_entity_ids (w_entity w1)) PreviewListener in
  (mkWorld hass' (w_entity w1) (w_reported w1), h).

(** The committed path, for contrast: [async_defer_or_update_ha_state]
    and the listener of [async_added_to_hass].  The event context the
    listener records is left to the host. *)
Definition async_defer_or_update_ha_state (w : World) : World :=
  if negb (is_running (w_hass w)) then w
  else
    let e1 := async_update_group_state (w_hass w) (w_entity w) in
    let cs := _async_calculate_state e1 in
    mkWorld
      (async_write_ha_state
         (mkState (entity_id_of e1) (domain_of e1) (cs_state cs)
            (cs_attributes cs))
         (w_hass w))
      e1 (w_reported w).

Definition committed_listener (event : Event) (w : World) : World :=
  let e1 :=
    async_update_supported_features
      (ev_entity_id event) (ev_new_state event) (w_entity w) in
  async_defer_or_update_ha_state (mkWorld (w_hass w) e1 (w_reported w)).

(** [_update_at_start]: update the group state and publish it. *)
Definition _update_at_start (w : World) : World :=
  let e1 := async_update_group_state (w_hass w) (w_entity w) in
  let cs := _async_calculate_state e1 in
  mkWorld
    (async_write_ha_state
       (mkState (entity_id_of e1) (domain_of e1) (cs_state cs)
          (cs_attributes cs))
       (w_hass w))
    e1 (w_reported w).

(** What [async_added_to_hass] leaves behind: the world, the disposer of
    the subscription it handed to [async_on_remove], and whether
    [_update_at_start] still waits for the host to start. *)
Record Added := mkAdded {
  added_world : World;
  added_on_remove : list CALLBACK_TYPE;
  added_start_pending : bool
}.

(** Modelled from the spec: [onAdded()], start tracking and first
    recompute ([start.async_at_start] lives in [helpers/start.py]): on a
    running host the hook [_update_at_start] runs at once; otherwise it is
    kept for the host's start. *)
Definition async_added_to_hass (w : World) : Added :=
  let e1 := update_features_from_states (w_hass w) (w_entity w) in
  let '(hass', unsub) :=
    async_track_state_change_event (w_hass w) (_entity_ids e1)
      CommittedListener in
  let w1 := mkWorld hass' e1 (w_reported w) in
  if is_running hass' then mkAdded (_update_at_start w1) [unsub] false
  else mkAdded w1 [unsub] true.

(** Delivery of a notification to the live preview subscriptions that
    track the entity. *)
Definition wants (ev : Event) (s : Subscription) : bool :=
  match sub_listener s with
  | PreviewListener => bool_decide (ev_entity_id ev ∈ sub_entity_ids s)
  | _ => false
  end.

Definition notify_previews (ev : Event) (w : World) : World :=
  foldl
    (fun w s => if wants ev s then preview_listener (Some ev) w else w)
    w (subscriptions (w_hass w)).

(** What a preview client can do: start a preview, have a notification
    delivered, or call one of the disposers it was handed (the [i]-th
    one it obtained). *)
Inductive PreviewAction :=
  | StartPreview
  | Notify (ev : Event)
  | Dispose (i : nat).

Definition preview_step (st : World * list CALLBACK_TYPE)
    (a : PreviewAction) : World * list CALLBACK_TYPE :=
  let '(w, handles) := st in
  match a with
  | StartPreview =>
      let '(w', h) := async_start_preview w in (w', handles ++ [h])
  | Notify ev => (notify_previews ev w, handles)
  | Dispose i =>
      match handles !! i with
      | Some h =>
          (mkWorld (call_unsub h (w_hass w)) (w_entity w) (w_reported w),
           handles)
      | None => (w, handles)
      end
  end.

Definition run_preview (w : World) (acts : list PreviewAction)
  : World * list CALLBACK_TYPE :=
  foldl preview_step (w, []) acts.

End Preview.

End GroupEntity.

(** ** Concrete instances used in the examples *)

(** [str.lower] on ASCII text. *)
Definition ascii_lower (c : ascii) : ascii :=
  let n := nat_of_ascii c in
  if (65 <=? n)%nat && (n <=? 90)%nat then ascii_of_nat (n + 32) else c.

Fixpoint lower (s : string) : string :=
  match s with
  | EmptyString => EmptyString
  | String c r => String (ascii_lower c) (lower r)
  end.

(** [domain, _, object_id = entity_id.partition(".")] *)
Fixpoint partition_dot (s : string) : string * string :=
  match s with
  | EmptyString => (EmptyString, EmptyString)
  | String c r =>
      if Ascii.eqb c "."%char then (EmptyString, r)
      else let '(d, o) := partition_dot r in (String c d, o)
  end.

(** A registry in which lights are on/off and trackers home/not_home; the
    keys of [on_off_mapping] are the on-labels. *)
Definition ex_registry : GroupIntegrationRegistry :=
  mkRegistry
    {[ "light" := {[ "on" ]}; "device_tracker" := {[ "home" ]} ]}
    {[ "on" := true; "home" := true ]}
    {[ "off" := "on"; "not_home" := "home" ]}
    {[ "light" := "off"; "device_tracker" := "not_home" ]}
    {[ "scene" ]}.

Definition light_a (label : string) : State :=
  mkState "light.a" "light" label ∅.


Definition ex_hass (sts : list State) : HomeAssistant :=
  mkHass sts ex_registry true [].

(** The fields of a group before its members are set. *)
Definition blank_group : Group :=
  mkGroup "group.demo" None [] [] None ∅ ∅ ∅ mode_any false None None.

(** A freshly constructed group of the given members. *)
Definition ex_group (hass : HomeAssistant) (ids : list string) : Group :=
  Group_init lower partition_dot hass "group.demo" (Some ids) None.


(** ** The design document's wording, where it is set against the code *)


(** A label that matches no on- or off-mapping entry, for the member's
    domain or generically. *)
Definition unmatched_label (reg : GroupIntegrationRegistry) (st : State) : Prop :=
  on_off_mapping reg !! state st = None
  ∧ off_on_mapping reg !! state st = None
  ∧ (∀ labels, on_states_by_domain reg !! domain st = Some labels →
               state st ∉ labels)
  ∧ off_state_by_domain reg !! domain st ≠ Some (state st).

(** Observing such a member, as the document words it: the entry is false
    and the set of on-labels is what it was. *)
Definition unmatched_observation_as_worded
    (hass : HomeAssistant) (g : Group) (st : State) : Prop :=
  unmatched_label (registry hass) st →
  let g' := _see_state hass st g in
  _on_off g' !! entity_id st = Some false ∧ _on_states g' = _on_states g.

(** The labels the trackable members report right now that are keys of
    [offOnMapping]: what specific-label detection is to find when asked for
    off-labels. *)
Definition live_labels (hass : HomeAssistant) (g : Group) : list string :=
  omap (λ eid, state <$> states_get hass eid) (trackable g).

Definition live_off_labels (hass : HomeAssistant) (g : Group) : gset string :=
  list_to_set
    (List.filter (has_key (off_on_mapping (registry hass))) (live_labels hass g)).

(** The removal of the only known member, as the document words it: the
    group is subscribed, its caches hold exactly the member [e], no
    trackable member has a live state any more, and the notification for
    [e] carries no new state; afterwards the aggregate is unknown. *)
Definition removal_as_worded
    (hass : HomeAssistant) (event : Event) (g : Group) : Prop :=
  is_Some (_async_unsub_state_changed g) →
  ev_new_state event = None →
  ev_entity_id event ∈ trackable g →
  dom (_on_off g) = {[ev_entity_id event]} →
  dom (_assumed g) = {[ev_entity_id event]} →
  (∀ eid, eid ∈ trackable g → states_get hass eid = None) →
  ∃ hass' g',
    _async_state_changed_listener hass event g = Ok (hass', g')
    ∧ _state g' = None.

(** A group of the single light "light.a", started while the light is on
    ... *)
Definition lit_hass : HomeAssistant := ex_hass [light_a "on"].

Definition started_single : HomeAssistant * Group :=
  match _async_start lit_hass (ex_group lit_hass ["light.a"]) with
  | Ok hg => hg
  | UnboundLocalError => (lit_hass, ex_group lit_hass ["light.a"])
  end.

(** ... and the host after the light's state has been removed from the
    state machine, with the notification of the removal. *)
Definition hass_removed : HomeAssistant :=
  set_states
    (List.filter (fun s => negb (String.eqb (entity_id s) "light.a"))
       (states started_single.1))
    started_single.1.

Definition removal_event : Event := mkEvent "light.a" None 7.

(** An example group entity: it is on when some member is on. *)
Record AnyOn := mkAnyOn {
  ao_entity_id : string;
  ao_members : list string;
  ao_is_on : bool
}.

Definition member_is_on (hass : HomeAssistant) (eid : string) : bool :=
  match states_get hass eid with
  | Some st => String.eqb (state st) STATE_ON
  | None => false
  end.

#[export] Instance AnyOn_impl : GroupEntity.Impl AnyOn := {|
  GroupEntity.entity_id_of := ao_entity_id;
  GroupEntity.domain_of _ := "light";
  GroupEntity._entity_ids := ao_members;
  GroupEntity.async_update_group_state hass e :=
    mkAnyOn (ao_entity_id e) (ao_members e)
      (existsb (member_is_on hass) (ao_members e));
  GroupEntity.async_update_supported_features _ _ e := e;
  GroupEntity._async_calculate_state e :=
    GroupEntity.mkCalculated (if ao_is_on e then STATE_ON else STATE_OFF) ∅
|}.

(** A running host in which that entity is added while "light.a" is on
    ... *)
Definition any_on_world : GroupEntity.World :=
  GroupEntity.added_world
    (GroupEntity.async_added_to_hass
       (GroupEntity.mkWorld lit_hass (mkAnyOn "light.all" ["light.a"] false)
          [])).

(** ... the same world after the light has gone off in the state machine
    ... *)
Definition any_on_dark_world : GroupEntity.World :=
  GroupEntity.mkWorld
    (async_write_ha_state (light_a "off") (GroupEntity.w_hass any_on_world))
    (GroupEntity.w_entity any_on_world)
    (GroupEntity.w_reported any_on_world).

(** ... and the entity added to a host that has not started yet. *)
Definition any_on_waiting : GroupEntity.Added :=
  GroupEntity.async_added_to_hass
    (GroupEntity.mkWorld (mkHass [light_a "on"] ex_registry false [])
       (mkAnyOn "light.all" ["light.a"] false) []).

(** ** The factory and the attributes *)

(** Constants of [homeassistant.const] and of the component's [const]. *)
Definition ATTR_ENTITY_ID : string := "entity_id".
Definition ATTR_ORDER : string := "order".
Definition ATTR_AUTO : string := "auto".

Definition ENTITY_ID_FORMAT : string := String.append DOMAIN ".{}".

(** The descriptive fields of a [Group] object, beside the tracking state
    held in [Group]. *)
Record GroupObject := mkGroupObject {
  go_group : Group;
  _attr_name : string;
  _attr_icon : option string;
  _order : option Z;
  created_by_service : bool
}.

(** [set_name] and [set_icon]. *)
Definition set_name (value : string) (o : GroupObject) : GroupObject :=
  mkGroupObject (go_group o) value (_attr_icon o) (_order o)
    (created_by_service o).

Definition set_icon (value : option string) (o : GroupObject) : GroupObject :=
  mkGroupObject (go_group o) (_attr_name o) value (_order o)
    (created_by_service o).

(** The values [extra_state_attributes] holds. *)
Inductive AttrValue :=
  | AttrIds (ids : list string)
  | AttrOrder (order : option Z)
  | AttrTrue.

Definition extra_state_attributes (o : GroupObject) : gmap string AttrValue :=
  let data : gmap string AttrValue :=
    <[ATTR_ORDER := AttrOrder (_order o)]>
      (<[ATTR_ENTITY_ID := AttrIds (tracking (go_group o))]> ∅) in
  if created_by_service o then <[ATTR_AUTO := AttrTrue]> data else data.

(** The block [if order is None: ...] of [async_create_group_entity]:
    [group_order] is [hass.data.get(GROUP_ORDER)]; the result is the order
    given to the group and the counter left in [hass.data]. *)
Definition assign_order (order group_order : option Z) : Z * option Z :=
  match order with
  | None =>
      let current := default 0%Z group_order in
      (current, Some (current + 1)%Z)
  | Some o => (o, group_order)
  end.

(** The keyword arguments of the factory. *)
Record GroupRequest := mkRequest {
  rq_name : string;
  rq_created_by_service : bool;
  rq_entity_ids : option (list string);
  rq_icon : option string;
  rq_mode : option bool;
  rq_object_id : option string;
  rq_order : option Z
}.

Section Factory.

Variable str_lower : string → string.
Variable split_entity_id : string → string * string.

(** [async_generate_entity_id(format, name, hass=hass)], of
    [helpers/entity.py], is taken as given. *)
Variable async_generate_entity_id : string → string → string.

(** [async_create_group_entity]; the counter [hass.data[GROUP_ORDER]] is
    threaded beside the host. *)
Definition async_create_group_entity (hass : HomeAssistant)
    (group_order : option Z) (rq : GroupRequest) : option Z * GroupObject :=
  let '(order, group_order') := assign_order (rq_order rq) group_order in
  let eid :=
    async_generate_entity_id ENTITY_ID_FORMAT
      (if truthy (rq_object_id rq) then default (rq_name rq) (rq_object_id rq)
       else rq_name rq) in
  (group_order',
   mkGroupObject
     (Group_init str_lower split_entity_id hass eid (rq_entity_ids rq)
        (rq_mode rq))
     (rq_name rq) (rq_icon rq) (Some order) (rq_created_by_service rq)).

(** Groups created one after the other. *)
Definition create_groups (hass : HomeAssistant) (group_order : option Z)
    (rqs : list GroupRequest) : option Z * list GroupObject :=
  foldl
    (fun st rq =>
       let '(counter, made) := st in
       let '(counter', o) := async_create_group_entity hass counter rq in
       (counter', made ++ [o]))
    (group_order, []) rqs.

End Factory.

(** Both caches have the same keys, and on-labels are known only when some
    member is. *)
Definition caches_consistent (g : Group) : Prop :=
  dom (_on_off g) = dom (_assumed g) ∧ (_on_off g = ∅ → _on_states g = ∅).

(** The number of requests that leave the order to the factory. *)
Definition count_unordered (rqs : list GroupRequest) : nat :=
  length (List.filter (fun rq => bool_decide (rq_order rq = None)) rqs).

(** * Properties *)

(** ** Membership *)

Section MembershipFacts.

Variable str_lower : string → string.
Variable split_entity_id : string → string * string.

Abbreviation step := (set_tracked_step str_lower split_entity_id).
Abbreviation dom_of := (fun x : string => (split_entity_id x).1).

Lemma step_tracking excluded acc id :
  acc_tracking (step excluded acc id) = acc_tracking acc ++ [str_lower id].
Proof.
  unfold set_tracked_step. repeat case_decide; reflexivity.
Qed.

Lemma step_trackable excluded acc id :
  acc_trackable (step excluded acc id)
  = acc_trackable acc
    ++ filter (λ x, dom_of x ∉ excluded) [str_lower id].
Proof.
  unfold set_tracked_step.
  rewrite filter_cons, filter_nil.
  repeat case_decide; simpl; rewrite ?app_nil_r; done.
Qed.

Lemma foldl_tracking excluded ids acc :
  acc_tracking (foldl (step excluded) acc ids)
  = acc_tracking acc ++ map str_lower ids.
Proof.
  revert acc. induction ids as [|id ids IH]; intros acc; simpl.
  - by rewrite app_nil_r.
  - rewrite IH, step_tracking, <- app_assoc. reflexivity.
Qed.

Lemma foldl_trackable excluded ids acc :
  acc_trackable (foldl (step excluded) acc ids)
  = acc_trackable acc
    ++ filter (λ x, dom_of x ∉ excluded) (map str_lower ids).
Proof.
  revert acc. induction ids as [|id ids IH]; intros acc; simpl.
  - by rewrite filter_nil, app_nil_r.
  - rewrite IH, step_trackable, <- app_assoc.
    f_equal. by rewrite <- filter_app.
Qed.

Lemma step_inv excluded acc id :
  acc_inv split_entity_id acc → acc_inv split_entity_id (step excluded acc id).
Proof.
  unfold acc_inv, set_tracked_step.
  destruct acc as [tg tb sg mu]; simpl.
  set (lid := str_lower id). set (d := (split_entity_id lid).1).
  destruct (decide (d ∈ excluded)); simpl; [done|].
  destruct sg as [d0|], mu; simpl; try done.
  - (* one domain so far *)
    intros [Hne Hall].
    destruct (decide (Some d0 ≠ Some d)) as [Hd|Hd]; simpl.
    + destruct tb as [|x tb]; [done|].
      exists x, lid. repeat split.
      * set_solver.
      * set_solver.
      * apply Forall_cons in Hall as [Hx _]. simpl in Hx.
        intros Heq. apply Hd. f_equal. rewrite <- Hx. exact Heq.
    + assert (d0 = d) by (apply dec_stable; intros Hn; apply Hd; congruence). subst d0.
      split; [by destruct tb|].
      apply Forall_app; split; [done|]. by apply Forall_singleton.
  - (* already several domains *)
    intros (x & y & Hx & Hy & Hxy).
    exists x, y. set_solver.
  - (* first trackable member *)
    intros ->. case_decide; [done|]. simpl.
    split; [done|]. by apply Forall_singleton.
Qed.

Lemma foldl_inv excluded ids acc :
  acc_inv split_entity_id acc → acc_inv split_entity_id (foldl (step excluded) acc ids).
Proof.
  revert acc. induction ids as [|id ids IH]; intros acc Hacc; simpl; [done|].
  apply IH, step_inv, Hacc.
Qed.

Lemma acc_inv_single acc :
  acc_inv split_entity_id acc →
  acc_single acc ≠ None
  ↔ acc_trackable acc ≠ []
    ∧ ∀ x y, x ∈ acc_trackable acc → y ∈ acc_trackable acc →
             dom_of x = dom_of y.
Proof.
  unfold acc_inv. destruct acc as [tg tb [d0|] mu]; simpl; destruct mu; try done.
  - intros [Hne Hall]. split; [|done]. intros _. split; [done|].
    intros x y Hx Hy. rewrite Forall_forall in Hall.
    rewrite (Hall x Hx), (Hall y Hy). reflexivity.
  - intros (x & y & Hx & Hy & Hxy). split; [done|].
    intros [_ Hsame]. exfalso. apply Hxy. by apply Hsame.
  - intros ->. split; [done|]. by intros [? _].
Qed.

(** The fields [_set_tracked] leaves in the group, in closed form. *)
Lemma set_tracked_fields hass ids g :
  let g' := _set_tracked str_lower split_entity_id hass ids g in
  ∃ acc,
    acc = foldl (step (exclude_domains (registry hass)))
            (mkAcc [] [] None false) (default [] ids)
    ∧ tracking g' = acc_tracking acc
    ∧ trackable g' = acc_trackable acc
    ∧ single_active_domain g' = acc_single acc.
Proof.
  destruct ids as [[|id ids]|]; simpl; eexists; (split; [reflexivity|]); done.
Qed.

Lemma set_tracked_trackable hass ids g :
  trackable (_set_tracked str_lower split_entity_id hass ids g)
  = filter (λ x, dom_of x ∉ exclude_domains (registry hass))
      (map str_lower (default [] ids)).
Proof.
  destruct (set_tracked_fields hass ids g) as (acc & -> & _ & -> & _).
  by rewrite foldl_trackable.
Qed.

Lemma set_tracked_tracking hass ids g :
  tracking (_set_tracked str_lower split_entity_id hass ids g)
  = map str_lower (default [] ids).
Proof.
  destruct (set_tracked_fields hass ids g) as (acc & -> & -> & _).
  by rewrite foldl_tracking.
Qed.

Lemma set_tracked_single hass ids g :
  let g' := _set_tracked str_lower split_entity_id hass ids g in
  single_active_domain g' ≠ None
  ↔ trackable g' ≠ []
    ∧ ∀ x y, x ∈ trackable g' → y ∈ trackable g' → dom_of x = dom_of y.
Proof.
  intros g'. subst g'.
  destruct (set_tracked_fields hass ids g) as (acc & Hacc & _ & -> & ->).
  apply acc_inv_single. subst acc. by apply foldl_inv.
Qed.

(** C6: after membership computation the single active domain is
    non-null exactly when there is a trackable member and all trackable
    members share one domain; and once two trackable members of distinct
    domains have been seen, it is null whatever members follow. *)
Theorem single_active_domain_iff_one_domain hass g :
  (∀ ids,
     let g' := _set_tracked str_lower split_entity_id hass ids g in
     single_active_domain g' ≠ None
     ↔ trackable g' ≠ []
       ∧ ∀ x y, x ∈ trackable g' → y ∈ trackable g' →
                (split_entity_id x).1 = (split_entity_id y).1)
  ∧ (∀ seen later,
       (∃ x y,
          x ∈ trackable
                (_set_tracked str_lower split_entity_id hass (Some seen) g)
          ∧ y ∈ trackable
                  (_set_tracked str_lower split_entity_id hass (Some seen) g)
          ∧ (split_entity_id x).1 ≠ (split_entity_id y).1) →
       single_active_domain
         (_set_tracked str_lower split_entity_id hass
            (Some (seen ++ later)) g) = None).
Proof.
  split.
  - intros ids. apply set_tracked_single.
  - intros seen later (x & y & Hx & Hy & Hxy).
    apply dec_stable. intros Hsome.
    apply set_tracked_single in Hsome as [_ Hsame].
    apply Hxy, Hsame;
      rewrite set_tracked_trackable in *; simpl in *;
      rewrite map_app, filter_app; set_solver.
Qed.

End MembershipFacts.

Lemma single_active_domain_iff_one_domain_witness :
  single_active_domain
    (_set_tracked lower partition_dot (ex_hass [])
       (Some (["light.a"; "switch.b"] ++ ["light.c"])) blank_group) = None.
Proof.
  apply (single_active_domain_iff_one_domain lower partition_dot
           (ex_hass []) blank_group).
  exists "light.a", "switch.b".
  assert (Htb : trackable
                  (_set_tracked lower partition_dot (ex_hass [])
                     (Some ["light.a"; "switch.b"]) blank_group)
                = ["light.a"; "switch.b"]) by (vm_compute; reflexivity).
  rewrite Htb. split; [apply list_elem_of_here|].
  split; [apply list_elem_of_further, list_elem_of_here|].
  vm_compute. intros Heq. discriminate Heq.
Defined.

(** ** The per-member caches *)

Lemma states_get_entity_id hass eid st :
  states_get hass eid = Some st → entity_id st = eid.
Proof.
  unfold states_get. intros Hfind.
  apply find_some in Hfind as [_ Heq]. by apply String.eqb_eq.
Qed.

Lemma see_state_on_off_dom hass st g :
  dom (_on_off (_see_state hass st g)) = {[entity_id st]} ∪ dom (_on_off g).
Proof.
  unfold _see_state.
  destruct (on_states_by_domain (registry hass) !! domain st); simpl;
    by rewrite dom_insert_L.
Qed.

Lemma see_state_assumed_dom hass st g :
  dom (_assumed (_see_state hass st g)) = {[entity_id st]} ∪ dom (_assumed g).
Proof.
  unfold _see_state.
  destruct (on_states_by_domain (registry hass) !! domain st); simpl;
    by rewrite dom_insert_L.
Qed.

Lemma see_state_frame hass st g :
  let g' := _see_state hass st g in
  _state g' = _state g ∧ tracking g' = tracking g ∧ trackable g' = trackable g
  ∧ single_active_domain g' = single_active_domain g ∧ mode g' = mode g
  ∧ _assumed_state g' = _assumed_state g
  ∧ _async_unsub_state_changed g' = _async_unsub_state_changed g.
Proof.
  unfold _see_state.
  destruct (on_states_by_domain (registry hass) !! domain st); simpl; done.
Qed.

Lemma reset_step_dom hass g eid :
  dom (_on_off (reset_step hass g eid)) ⊆ {[eid]} ∪ dom (_on_off g)
  ∧ dom (_assumed (reset_step hass g eid)) ⊆ {[eid]} ∪ dom (_assumed g).
Proof.
  unfold reset_step. destruct (states_get hass eid) as [st|] eqn:Hget.
  - rewrite see_state_on_off_dom, see_state_assumed_dom.
    apply states_get_entity_id in Hget as ->. done.
  - set_solver.
Qed.

Lemma subseteq_chain (A B C D : gset string) (e : string) :
  A ⊆ B ∪ C → C ⊆ {[e]} ∪ D → A ⊆ ({[e]} ∪ B) ∪ D.
Proof.
  intros HAB HCD x Hx. apply HAB in Hx.
  rewrite !elem_of_union in *. destruct Hx as [Hx|Hx]; [tauto|].
  apply HCD in Hx. rewrite elem_of_union in Hx. tauto.
Qed.

Lemma foldl_reset_dom hass ids g :
  dom (_on_off (foldl (reset_step hass) g ids))
    ⊆ list_to_set ids ∪ dom (_on_off g)
  ∧ dom (_assumed (foldl (reset_step hass) g ids))
      ⊆ list_to_set ids ∪ dom (_assumed g).
Proof.
  revert g. induction ids as [|eid ids IH]; intros g; simpl.
  - set_solver.
  - destruct (IH (reset_step hass g eid)) as [Hoo Has].
    destruct (reset_step_dom hass g eid) as [Hoo1 Has1].
    split; eapply subseteq_chain; eassumption.
Qed.

Lemma reset_tracked_state_dom hass g :
  dom (_on_off (_reset_tracked_state hass g)) ⊆ list_to_set (trackable g)
  ∧ dom (_assumed (_reset_tracked_state hass g)) ⊆ list_to_set (trackable g).
Proof.
  unfold _reset_tracked_state.
  destruct (foldl_reset_dom hass (trackable g) (with_caches ∅ ∅ ∅ g)) as [Hoo Has].
  simpl in *. rewrite dom_empty_L, (right_id_L ∅ (∪)) in Hoo, Has. done.
Qed.

(** C7: whatever collection of ids is given (none, empty or not), after
    membership computation [tracking] lists the lower-cased ids in input
    order, [trackable] is [tracking] without exactly the ids of an excluded
    domain (order and duplicates kept), and after a full reset the keys of
    the on/off and assumed caches all belong to [trackable]. *)
Theorem set_tracked_partition
    (str_lower : string → string) (split_entity_id : string → string * string)
    (hass : HomeAssistant) (entity_ids : option (list string)) (g : Group) :
  let g' := _set_tracked str_lower split_entity_id hass entity_ids g in
  tracking g' = map str_lower (default [] entity_ids)
  ∧ trackable g'
    = filter (λ x, (split_entity_id x).1 ∉ exclude_domains (registry hass))
        (tracking g')
  ∧ dom (_on_off (_reset_tracked_state hass g')) ⊆ list_to_set (trackable g')
  ∧ dom (_assumed (_reset_tracked_state hass g')) ⊆ list_to_set (trackable g').
Proof.
  intros g'. subst g'.
  rewrite set_tracked_trackable, set_tracked_tracking.
  split; [done|]. split; [done|].
  rewrite <- (set_tracked_trackable _ _ hass entity_ids g).
  apply reset_tracked_state_dom.
Qed.

(** ** Observing a member *)


Lemma has_key_false {V} (m : gmap string V) k : has_key m k = false ↔ m !! k = None.
Proof.
  unfold has_key. rewrite bool_decide_eq_false, eq_None_not_Some. done.
Qed.





(** C5, as it holds: a member whose label matches no mapping entry is
    recorded as off; the on-labels are unchanged when its domain has no
    registered on-labels, and otherwise grow by exactly that domain's
    on-label set. *)
Theorem see_state_unmatched (hass : HomeAssistant) (g : Group) (st : State) :
  unmatched_label (registry hass) st →
  let g' := _see_state hass st g in
  _on_off g' !! entity_id st = Some false
  ∧ _on_states g'
    = _on_states g
      ∪ default ∅ (on_states_by_domain (registry hass) !! domain st)
  ∧ (on_states_by_domain (registry hass) !! domain st = None →
     _on_states g' = _on_states g).
Proof.
  intros (Hon & Hoff & Hdom & _) g'. subst g'. unfold _see_state.
  destruct (on_states_by_domain (registry hass) !! domain st) as [labels|]
    eqn:Hlabels; simpl.
  - rewrite lookup_insert_eq.
    rewrite bool_decide_eq_false_2 by (by apply Hdom).
    split; [done|]. split; [done|]. intros [=].
  - rewrite lookup_insert_eq.
    apply has_key_false in Hon. rewrite Hon, Hoff.
    rewrite (right_id_L ∅ (∪)). done.
Qed.

Lemma see_state_unmatched_witness :
  unmatched_label (registry (ex_hass [])) (light_a "unavailable")
  ∧ _on_off (_see_state (ex_hass []) (light_a "unavailable")
               (ex_group (ex_hass []) ["light.a"]))
      !! "light.a" = Some false.
Proof.
  assert (Hun : unmatched_label (registry (ex_hass [])) (light_a "unavailable")).
  { repeat split.
    - intros labels [= <-]. vm_compute. intros Hin. discriminate Hin.
    - vm_compute. intros Heq. discriminate Heq. }
  split; [exact Hun|].
  apply (see_state_unmatched (ex_hass []) (ex_group (ex_hass []) ["light.a"])
           (light_a "unavailable") Hun).
Defined.

(** C5 as worded fails: a light reporting an unmatched label still brings
    the domain's on-label "on" into the on-labels. *)
Lemma unmatched_observation_not_as_worded :
  ¬ unmatched_observation_as_worded (ex_hass [])
      (ex_group (ex_hass []) ["light.a"]) (light_a "unavailable").
Proof.
  intros Hclaim.
  destruct Hclaim as [_ Hsame].
  - repeat split.
    + intros labels [= <-]. vm_compute. intros Hin. discriminate Hin.
    + vm_compute. intros Heq. discriminate Heq.
  - assert (Hin : "on" ∈ _on_states
                     (_see_state (ex_hass []) (light_a "unavailable")
                        (ex_group (ex_hass []) ["light.a"]))).
    { vm_compute. reflexivity. }
    rewrite Hsame in Hin. vm_compute in Hin. discriminate Hin.
Qed.

(** ** Recompute *)

Lemma only_or_singleton (l dflt : string) : only_or {[l]} dflt = l.
Proof. unfold only_or. by rewrite elements_singleton. Qed.

Lemma only_or_other (s : gset string) (dflt : string) :
  size s ≠ 1 → only_or s dflt = dflt.
Proof.
  unfold only_or, size, set_size. simpl.
  destruct (elements s) as [|x [|y l]]; simpl; [done| |done].
  intros Hne. by destruct Hne.
Qed.

Lemma head_elements_size_one (s : gset string) :
  size s = 1 → is_Some (head (elements s)).
Proof.
  unfold size, set_size. simpl.
  destruct (elements s) as [|x l]; simpl; [done|]. by eexists.
Qed.

(** Whenever the group is on, one of the three branches has assigned the
    local. *)
Lemma on_state_local_assigned hass g :
  size (_on_states g) ≠ 0 → is_Some (on_state_local hass g true).
Proof.
  intros Hne. unfold on_state_local.
  case_decide as Hone; [by apply head_elements_size_one|].
  destruct (truthy (single_active_domain g) && _); by eexists.
Qed.

Lemma update_assumed_state_frame tr g :
  let g' := update_assumed_state tr g in
  _state g' = _state g ∧ trackable g' = trackable g
  ∧ single_active_domain g' = single_active_domain g
  ∧ _on_off g' = _on_off g ∧ _assumed g' = _assumed g
  ∧ _on_states g' = _on_states g ∧ mode g' = mode g
  ∧ _async_unsub_state_changed g' = _async_unsub_state_changed g.
Proof.
  unfold update_assumed_state.
  destruct tr as [tr|]; simpl; [|done].
  destruct (_assumed_state g && negb (attr_assumed_state tr)); simpl; [done|].
  destruct (attr_assumed_state tr); simpl; done.
Qed.

(** The recompute never reads the unassigned local; in closed form. *)
Lemma update_group_state_closed_form hass tr g :
  let g1 := see_changed hass tr g in
  let g2 := update_assumed_state tr g1 in
  _async_update_group_state hass tr g
  = if decide (_on_off g1 = ∅) then Ok g1
    else if decide (size (_on_states g2) = 0) then Ok (with_state None g2)
    else if apply_mode (mode g2) (values (_on_off g2))
    then Ok (with_state (on_state_local hass g2 true) g2)
    else Ok (with_state (Some (off_state_of hass g2)) g2).
Proof.
  intros g1 g2. unfold _async_update_group_state. fold g1. fold g2.
  case_decide; [done|]. case_decide as Hsize; [done|].
  unfold finish_update.
  destruct (apply_mode (mode g2) (values (_on_off g2))); [|done].
  destruct (on_state_local_assigned hass g2 Hsize) as [l ->]. done.
Qed.

Lemma update_group_state_total hass tr g :
  ∃ g', _async_update_group_state hass tr g = Ok g'.
Proof.
  rewrite update_group_state_closed_form. simpl.
  repeat case_decide; try destruct (apply_mode _ _); by eexists.
Qed.

(** C8: the recompute never ends in the unassigned-variable error: when
    the on-label determination is reached with the group on, one of the
    three branches has assigned the local; with the group off, the rest of
    the recompute does not depend on the local at all. *)
Theorem on_state_assigned_before_read (hass : HomeAssistant) :
  (∀ tr g, ∃ g', _async_update_group_state hass tr g = Ok g')
  ∧ (∀ g, _on_states g ≠ ∅ → is_Some (on_state_local hass g true))
  ∧ (∀ g v w, finish_update hass g false v = finish_update hass g false w).
Proof.
  split; [intros tr g; apply update_group_state_total|].
  split; [|done].
  intros g Hne. apply on_state_local_assigned.
  intros Hsize. apply size_empty_iff in Hsize. apply Hne.
  by apply leibniz_equiv.
Qed.

Lemma on_state_assigned_before_read_witness :
  is_Some (on_state_local lit_hass started_single.2 true).
Proof.
  apply (on_state_assigned_before_read lit_hass).
  intros Hempty. apply (f_equal (λ s, bool_decide ("on" ∈ s))) in Hempty.
  vm_compute in Hempty. discriminate Hempty.
Defined.

(** C3: in a recompute with a non-empty on/off cache, the assumed flag is
    the combinator over all cached assumed flags when no changed state is
    supplied or when the group was assumed and the changed member is not;
    it is true when the changed member is assumed; and it keeps its value in
    the remaining case. *)
Theorem assumed_state_update (hass : HomeAssistant) (tr : option State)
    (g : Group) :
  _on_off (see_changed hass tr g) ≠ ∅ →
  ∃ g', _async_update_group_state hass tr g = Ok g'
    ∧ _assumed g' = _assumed (see_changed hass tr g)
    ∧ ((tr = None
        ∨ (_assumed_state g = true
           ∧ ∃ s, tr = Some s ∧ attr_assumed_state s = false)) →
       _assumed_state g'
       = apply_mode (mode g) (values (_assumed (see_changed hass tr g))))
    ∧ (∀ s, tr = Some s → attr_assumed_state s = true →
            _assumed_state g' = true)
    ∧ (∀ s, tr = Some s → attr_assumed_state s = false →
            _assumed_state g = false →
            _assumed_state g' = _assumed_state g).
Proof.
  set (g1 := see_changed hass tr g). intros Hne.
  rewrite update_group_state_closed_form. fold g1.
  rewrite decide_False by exact Hne.
  set (g2 := update_assumed_state tr g1).
  assert (Hg' : ∃ g', (if decide (size (_on_states g2) = 0)
                       then Ok (with_state None g2)
                       else if apply_mode (mode g2) (values (_on_off g2))
                            then Ok (with_state (on_state_local hass g2 true) g2)
                            else Ok (with_state (Some (off_state_of hass g2)) g2))
                      = Ok g'
                      ∧ _assumed g' = _assumed g2
                      ∧ _assumed_state g' = _assumed_state g2).
  { case_decide; [by eexists|].
    destruct (apply_mode _ _); by eexists. }
  destruct Hg' as (g' & -> & Hcache & Hflag).
  exists g'. split; [done|].
  destruct (update_assumed_state_frame tr g1) as (_ & _ & _ & _ & Hasm & _).
  fold g2 in Hasm. rewrite Hcache, Hflag, Hasm. split; [done|].
  assert (Hmode : mode g1 = mode g ∧ _assumed_state g1 = _assumed_state g).
  { subst g1. destruct tr as [s|]; simpl; [|done].
    destruct (see_state_frame hass s g) as (_ & _ & _ & _ & Hm & Ha & _). done. }
  destruct Hmode as [Hmode Hprev].
  subst g2. unfold update_assumed_state. rewrite Hmode, Hprev.
  repeat split.
  - intros [->|(Hwas & s & -> & Hs)]; [done|]. by rewrite Hwas, Hs.
  - intros s -> Hs. rewrite Hs. simpl. rewrite andb_false_r. done.
  - intros s -> Hs Hwas. rewrite Hs, Hwas. simpl. by rewrite Hprev.
Qed.

Lemma assumed_state_update_witness :
  _on_off (see_changed lit_hass None started_single.2) ≠ ∅
  ∧ ∃ g', _async_update_group_state lit_hass None started_single.2 = Ok g'
          ∧ _assumed_state g' = false.
Proof.
  assert (Hne : _on_off (see_changed lit_hass None started_single.2) ≠ ∅).
  { intros Hempty. apply (f_equal (λ m, m !! "light.a")) in Hempty.
    vm_compute in Hempty. discriminate Hempty. }
  split; [exact Hne|].
  destruct (assumed_state_update lit_hass None started_single.2 Hne)
    as (g' & Hrun & _ & Hfull & _).
  exists g'. split; [exact Hrun|].
  rewrite Hfull by (by left). vm_compute. reflexivity.
Defined.

(** Asked for off-labels, the detection loop never breaks and gathers the
    live labels that are keys of [off_on_mapping]. *)
Lemma detect_loop_off hass ids (on off : gset string) :
  (detect_loop hass false ids on off).2
  = off ∪ list_to_set
            (List.filter (has_key (off_on_mapping (registry hass)))
               (omap (λ eid, state <$> states_get hass eid) ids)).
Proof.
  revert off. induction ids as [|eid ids IH]; intros off; simpl.
  - by rewrite (right_id_L ∅ (∪)).
  - destruct (states_get hass eid) as [st|]; simpl; [|apply IH].
    destruct (has_key (off_on_mapping (registry hass)) (state st)); simpl.
    + rewrite IH, (comm_L (∪) {[state st]} off), <- (assoc_L (∪)). done.
    + apply IH.
Qed.

Lemma detect_off_labels hass g :
  _detect_specific_on_off_state hass false g = live_off_labels hass g.
Proof.
  unfold _detect_specific_on_off_state, live_off_labels, live_labels.
  rewrite detect_loop_off. by rewrite (left_id_L ∅ (∪)).
Qed.

Lemma domain_off_state_Some reg sad off_label :
  domain_off_state reg sad = Some off_label
  ↔ ∃ d, sad = Some d ∧ d ≠ "" ∧ off_state_by_domain reg !! d = Some off_label.
Proof.
  unfold domain_off_state, truthy. destruct sad as [d|]; simpl.
  - destruct (String.eqb_spec d ""); simpl.
    + split; [done|]. intros (d' & [= <-] & Hne & _). done.
    + split; [by exists d|]. by intros (d' & [= <-] & _ & Hl).
  - split; [done|]. by intros (d' & [=] & _).
Qed.

(** C2: in a recompute that finds the group off, with on-labels known: if
    the single active domain is set and has a canonical off-label, that
    label is the aggregate; otherwise the aggregate is the one live
    off-label when exactly one distinct live off-label exists, and the
    generic "off" otherwise. *)
Theorem group_off_state (hass : HomeAssistant) (tr : option State) (g : Group) :
  _on_off (see_changed hass tr g) ≠ ∅ →
  _on_states (see_changed hass tr g) ≠ ∅ →
  apply_mode (mode g) (values (_on_off (see_changed hass tr g))) = false →
  ∃ g', _async_update_group_state hass tr g = Ok g'
    ∧ (∀ d off_label,
         single_active_domain g = Some d → d ≠ "" →
         off_state_by_domain (registry hass) !! d = Some off_label →
         _state g' = Some off_label)
    ∧ (¬ (∃ d off_label,
            single_active_domain g = Some d ∧ d ≠ ""
            ∧ off_state_by_domain (registry hass) !! d = Some off_label) →
       (∀ l, live_off_labels hass g = {[l]} → _state g' = Some l)
       ∧ (size (live_off_labels hass g) ≠ 1 → _state g' = Some STATE_OFF)).
Proof.
  set (g1 := see_changed hass tr g). intros Hoo Hons Hoff.
  rewrite update_group_state_closed_form. fold g1.
  set (g2 := update_assumed_state tr g1).
  destruct (update_assumed_state_frame tr g1)
    as (_ & Htb & Hsad & Hoo2 & _ & Hons2 & Hmode2 & _).
  fold g2 in Htb, Hsad, Hoo2, Hons2, Hmode2.
  assert (Hg1 : mode g1 = mode g ∧ trackable g1 = trackable g
                ∧ single_active_domain g1 = single_active_domain g).
  { subst g1. destruct tr as [s|]; simpl; [|done].
    destruct (see_state_frame hass s g) as (_ & _ & Ht & Hs & Hm & _). done. }
  destruct Hg1 as (Hmode1 & Htb1 & Hsad1).
  rewrite decide_False by exact Hoo.
  rewrite decide_False.
  2:{ intros Hsize. apply size_empty_iff in Hsize. apply Hons.
      rewrite <- Hons2. by apply leibniz_equiv. }
  rewrite Hmode2, Hoo2, Hmode1, Hoff.
  eexists. split; [reflexivity|]. simpl.
  unfold off_state_of. rewrite Hsad, Hsad1.
  assert (Hlive : _detect_specific_on_off_state hass false g2
                  = live_off_labels hass g).
  { rewrite detect_off_labels. unfold live_off_labels, live_labels.
    by rewrite Htb, Htb1. }
  rewrite Hlive. clear Hlive.
  destruct (domain_off_state (registry hass) (single_active_domain g))
    as [l0|] eqn:Hdom.
  - apply domain_off_state_Some in Hdom as (d0 & Hd0 & Hne0 & Hl0).
    split.
    + intros d l Hd _ Hl. rewrite Hd0 in Hd. injection Hd as <-. congruence.
    + intros Hnone. exfalso. apply Hnone. by exists d0, l0.
  - split.
    + intros d l Hd Hne Hl.
      assert (Hsome : domain_off_state (registry hass) (single_active_domain g)
                      = Some l) by (apply domain_off_state_Some; by exists d).
      congruence.
    + intros _. split.
      * intros l ->. by rewrite only_or_singleton.
      * intros Hsize. by rewrite only_or_other.
Qed.

Lemma started_single_live_off :
  let hass := ex_hass [light_a "off"] in
  let g1 := see_changed hass (Some (light_a "off")) (ex_group hass ["light.a"]) in
  _on_off g1 ≠ ∅ ∧ _on_states g1 ≠ ∅
  ∧ apply_mode (mode (ex_group hass ["light.a"])) (values (_on_off g1)) = false.
Proof.
  intros hass g1. split; [|split].
  - intros Hempty. apply (f_equal (λ m, m !! "light.a")) in Hempty.
    vm_compute in Hempty. discriminate Hempty.
  - intros Hempty. apply (f_equal (λ s, bool_decide ("on" ∈ s))) in Hempty.
    vm_compute in Hempty. discriminate Hempty.
  - vm_compute. reflexivity.
Qed.

Lemma group_off_state_witness :
  let hass := ex_hass [light_a "off"] in
  let g := ex_group hass ["light.a"] in
  (_on_off (see_changed hass (Some (light_a "off")) g) ≠ ∅
   ∧ _on_states (see_changed hass (Some (light_a "off")) g) ≠ ∅
   ∧ apply_mode (mode g)
       (values (_on_off (see_changed hass (Some (light_a "off")) g))) = false)
  ∧ ∃ g', _async_update_group_state hass (Some (light_a "off")) g = Ok g'
          ∧ _state g' = Some "off".
Proof.
  intros hass g.
  destruct started_single_live_off as (Hoo & Hons & Hoff).
  split; [exact (conj Hoo (conj Hons Hoff))|].
  destruct (group_off_state hass (Some (light_a "off")) g Hoo Hons Hoff)
    as (g' & Hrun & Hdomain & _).
  exists g'. split; [exact Hrun|].
  apply (Hdomain "light");
    [vm_compute; reflexivity | discriminate | vm_compute; reflexivity].
Defined.

(** ** Notifications *)

Lemma foldl_reset_no_live hass ids g :
  (∀ eid, eid ∈ ids → states_get hass eid = None) →
  foldl (reset_step hass) g ids = g.
Proof.
  revert g. induction ids as [|eid ids IH]; intros g Hnone; simpl; [done|].
  unfold reset_step at 2. rewrite Hnone by apply list_elem_of_here.
  apply IH. intros eid' Hin. apply Hnone. by apply list_elem_of_further.
Qed.

(** With no live trackable member, the removal path ends with empty caches
    and the aggregate it started with. *)
Lemma listener_removal_run hass event g :
  is_Some (_async_unsub_state_changed g) →
  ev_new_state event = None →
  (∀ eid, eid ∈ trackable g → states_get hass eid = None) →
  let g' := with_caches ∅ ∅ ∅ (async_set_context (ev_context event) g) in
  _async_state_changed_listener hass event g
  = Ok (write_group_state hass g', g').
Proof.
  intros [h Hh] Hnew Hnone g'.
  unfold _async_state_changed_listener. rewrite Hh, Hnew.
  unfold _reset_tracked_state.
  rewrite foldl_reset_no_live by exact Hnone.
  fold g'. unfold _async_update_group_state. simpl.
  rewrite decide_True by done. done.
Qed.

Lemma started_single_facts :
  is_Some (_async_unsub_state_changed started_single.2)
  ∧ ev_entity_id removal_event ∈ trackable started_single.2
  ∧ dom (_on_off started_single.2) = {[ev_entity_id removal_event]}
  ∧ dom (_assumed started_single.2) = {[ev_entity_id removal_event]}
  ∧ (∀ eid, eid ∈ trackable started_single.2 →
            states_get hass_removed eid = None)
  ∧ _state started_single.2 = Some "on".
Proof.
  assert (Htb : trackable started_single.2 = ["light.a"])
    by (vm_compute; reflexivity).
  rewrite Htb.
  split; [exists 1; vm_compute; reflexivity|].
  split; [apply list_elem_of_here|].
  split; [vm_compute; reflexivity|].
  split; [vm_compute; reflexivity|].
  split; [|vm_compute; reflexivity].
  intros eid Hin. apply list_elem_of_singleton in Hin as ->.
  vm_compute. reflexivity.
Qed.

(** C1, as it holds: when the only known member is removed, the listener
    resets the caches and recomputes; the caches end empty and the
    aggregate state is the one the group had before the notification. *)
Theorem removal_keeps_aggregate (hass : HomeAssistant) (event : Event)
    (g : Group) :
  is_Some (_async_unsub_state_changed g) →
  ev_new_state event = None →
  ev_entity_id event ∈ trackable g →
  dom (_on_off g) = {[ev_entity_id event]} →
  dom (_assumed g) = {[ev_entity_id event]} →
  (∀ eid, eid ∈ trackable g → states_get hass eid = None) →
  ∃ hass' g',
    _async_state_changed_listener hass event g = Ok (hass', g')
    ∧ _async_update_group_state hass None
        (_reset_tracked_state hass (async_set_context (ev_context event) g))
      = Ok g'
    ∧ _on_off g' = ∅ ∧ _assumed g' = ∅ ∧ _on_states g' = ∅
    ∧ _state g' = _state g.
Proof.
  intros Hsub Hnew _ _ _ Hnone.
  eexists _, _. split; [by apply listener_removal_run|].
  split; [|done].
  unfold _reset_tracked_state.
  rewrite foldl_reset_no_live by exact Hnone.
  unfold _async_update_group_state. simpl.
  rewrite decide_True by done. done.
Qed.

Lemma removal_keeps_aggregate_witness :
  ∃ hass' g',
    _async_state_changed_listener hass_removed removal_event started_single.2
    = Ok (hass', g')
    ∧ _on_off g' = ∅ ∧ _state g' = Some "on".
Proof.
  destruct started_single_facts as (Hsub & Hin & Hoo & Has & Hnone & Hstate).
  destruct (removal_keeps_aggregate hass_removed removal_event started_single.2
              Hsub eq_refl Hin Hoo Has Hnone)
    as (hass' & g' & Hrun & _ & Hempty & _ & _ & Hsame).
  exists hass', g'. split; [exact Hrun|]. split; [exact Hempty|].
  rewrite Hsame. exact Hstate.
Defined.

(** C1 as worded fails: a started group whose only member, a light that
    was on, is removed keeps the aggregate "on". *)
Lemma removal_not_as_worded :
  ¬ removal_as_worded hass_removed removal_event started_single.2.
Proof.
  destruct started_single_facts as (Hsub & Hin & Hoo & Has & Hnone & Hstate).
  intros Hclaim.
  destruct (Hclaim Hsub eq_refl Hin Hoo Has Hnone) as (hass' & g' & Hrun & Hunknown).
  rewrite listener_removal_run in Hrun by done.
  injection Hrun as _ <-. simpl in Hunknown. congruence.
Qed.

(** [_async_stop] leaves the group unsubscribed. *)
Lemma async_stop_unsubscribed hass g :
  _async_unsub_state_changed (_async_stop hass g).2 = None.
Proof.
  unfold _async_stop. by destruct (_async_unsub_state_changed g) eqn:Hh.
Qed.

(** C10: a notification delivered while the subscription handle is null
    is ignored: the listener returns at once, leaving the host and every
    field of the group (caches, aggregate state, assumed flag) as they
    were. *)
Theorem listener_ignores_when_unsubscribed (hass : HomeAssistant)
    (event : Event) (g : Group) :
  _async_unsub_state_changed g = None →
  _async_state_changed_listener hass event g = Ok (hass, g).
Proof.
  intros Hnone. unfold _async_state_changed_listener. by rewrite Hnone.
Qed.

Lemma listener_ignores_when_unsubscribed_witness :
  let stopped := _async_stop lit_hass started_single.2 in
  _async_unsub_state_changed stopped.2 = None
  ∧ _async_state_changed_listener stopped.1
      (mkEvent "light.a" (Some (light_a "off")) 3) stopped.2
    = Ok (stopped.1, stopped.2).
Proof.
  intros stopped.
  split; [apply async_stop_unsubscribed|].
  apply (listener_ignores_when_unsubscribed stopped.1
           (mkEvent "light.a" (Some (light_a "off")) 3) stopped.2).
  apply async_stop_unsubscribed.
Defined.

(** ** Preview *)

Section PreviewFacts.
Context {E : Type} `{GroupEntity.Impl E}.
Import GroupEntity.

Lemma max_handle_app (a b : list Subscription) :
  (max_handle a ≤ max_handle (a ++ b))%nat.
Proof.
  unfold max_handle. induction a as [|s a IH]; simpl; lia.
Qed.

Lemma max_handle_ge (s : Subscription) (subs : list Subscription) :
  s ∈ subs → (sub_handle s ≤ max_handle subs)%nat.
Proof.
  unfold max_handle. induction 1 as [|s s' subs _ IH]; simpl; lia.
Qed.

Lemma filter_keeps_older (h : CALLBACK_TYPE) (subs : list Subscription) :
  (max_handle subs < h)%nat →
  List.filter (fun s => negb (Nat.eqb (sub_handle s) h)) subs = subs.
Proof.
  intros Hlt. induction subs as [|s subs IH]; simpl; [done|].
  pose proof (max_handle_ge s (s :: subs) (list_elem_of_here _ _)) as Hs.
  unfold max_handle in Hlt. simpl in Hlt.
  destruct (Nat.eqb_spec (sub_handle s) h) as [Heq|Hneq]; simpl; [lia|].
  f_equal. apply IH. unfold max_handle. lia.
Qed.

Lemma notify_previews_hass (ev : Event) (w : @World E) :
  w_hass (notify_previews ev w) = w_hass w.
Proof.
  unfold notify_previews. generalize (subscriptions (w_hass w)) as subs.
  intros subs. revert w. induction subs as [|s subs IH]; intros w; simpl.
  - done.
  - rewrite IH. by destruct (wants ev s).
Qed.

(** What every step of a preview client preserves: the published states,
    and the subscriptions that were live at the outset, in front of
    preview subscriptions with younger handles. *)
Lemma preview_step_inv (w0 : @World E) (st : @World E * list CALLBACK_TYPE)
    (a : PreviewAction) :
  (states (w_hass st.1) = states (w_hass w0)
   ∧ ∃ extra,
       subscriptions (w_hass st.1) = subscriptions (w_hass w0) ++ extra
       ∧ Forall (λ s, sub_listener s = PreviewListener) extra
       ∧ Forall (λ h, (max_handle (subscriptions (w_hass w0)) < h)%nat) st.2) →
  let st' := preview_step st a in
  states (w_hass st'.1) = states (w_hass w0)
  ∧ ∃ extra,
      subscriptions (w_hass st'.1) = subscriptions (w_hass w0) ++ extra
      ∧ Forall (λ s, sub_listener s = PreviewListener) extra
      ∧ Forall (λ h, (max_handle (subscriptions (w_hass w0)) < h)%nat) st'.2.
Proof.
  destruct st as [w handles]. simpl.
  intros (Hstates & extra & Hsubs & Hprev & Hyoung).
  destruct a as [|ev|i]; simpl.
  - (* a preview is started *)
    unfold async_start_preview, async_track_state_change_event. simpl.
    split; [done|].
    exists (extra ++ [mkSub (fresh_handle (subscriptions (w_hass w)))
                        (_entity_ids
                           (async_update_group_state (w_hass w)
                              (update_features_from_states (w_hass w)
                                 (w_entity w))))
                        PreviewListener]).
    rewrite Hsubs, <- app_assoc. split; [done|]. split.
    + apply Forall_app. split; [done|]. by apply Forall_singleton.
    + apply Forall_app. split; [done|]. apply Forall_singleton.
      unfold fresh_handle.
      pose proof (max_handle_app (subscriptions (w_hass w0)) extra). lia.
  - (* a notification reaches the previews *)
    rewrite notify_previews_hass. split; [done|]. by exists extra.
  - (* a preview disposer is called *)
    destruct (handles !! i) as [h|] eqn:Hh; simpl.
    + split; [done|].
      exists (List.filter (fun s => negb (Nat.eqb (sub_handle s) h)) extra).
      rewrite Hsubs, List.filter_app.
      rewrite filter_keeps_older.
      2:{ rewrite Forall_forall in Hyoung. apply Hyoung.
          by eapply list_elem_of_lookup_2. }
      split; [done|]. split; [|done].
      rewrite Forall_forall in Hprev |- *.
      intros s Hs. apply Hprev.
      apply list_elem_of_In in Hs. apply filter_In in Hs as [Hs _].
      by apply list_elem_of_In.
    + split; [done|]. by exists extra.
Qed.

Lemma run_preview_inv (w0 : @World E) (acts : list PreviewAction) :
  let st := run_preview w0 acts in
  states (w_hass st.1) = states (w_hass w0)
  ∧ ∃ extra,
      subscriptions (w_hass st.1) = subscriptions (w_hass w0) ++ extra
      ∧ Forall (λ s, sub_listener s = PreviewListener) extra
      ∧ Forall (λ h, (max_handle (subscriptions (w_hass w0)) < h)%nat) st.2.
Proof.
  unfold run_preview.
  induction acts as [|a acts IH] using rev_ind; simpl.
  - split; [done|]. exists []. by rewrite app_nil_r.
  - rewrite foldl_snoc. by apply preview_step_inv.
Qed.

(** C9: whatever a preview client does, and however often (start
    previews, have notifications delivered to them, call their
    disposers), the published states stay as they were, and so do the
    subscriptions that were live at the outset: only preview
    subscriptions come and go behind them. *)
Theorem preview_leaves_committed_state (w : @World E)
    (acts : list PreviewAction) :
  let w' := (run_preview w acts).1 in
  states (w_hass w') = states (w_hass w)
  ∧ states_get (w_hass w') (entity_id_of (w_entity w))
    = states_get (w_hass w) (entity_id_of (w_entity w))
  ∧ ∃ extra,
      subscriptions (w_hass w') = subscriptions (w_hass w) ++ extra
      ∧ Forall (λ s, sub_listener s = PreviewListener) extra.
Proof.
  intros w'. subst w'.
  destruct (run_preview_inv w acts) as (Hstates & extra & Hsubs & Hprev & _).
  split; [done|]. split; [unfold states_get; by rewrite Hstates|].
  by exists extra.
Qed.

End PreviewFacts.

(** ** The model on concrete inputs *)

Example set_tracked_mixed_case :
  let g := ex_group (ex_hass []) ["Light.A"; "scene.evening"; "light.b"] in
  tracking g = ["light.a"; "scene.evening"; "light.b"]
  ∧ trackable g = ["light.a"; "light.b"]
  ∧ single_active_domain g = Some "light".
Proof. vm_compute. done. Qed.

Example set_tracked_second_domain :
  single_active_domain
    (ex_group (ex_hass []) ["light.a"; "switch.b"; "light.c"; "light.d"])
  = None.
Proof. vm_compute. reflexivity. Qed.

Example any_group_one_on :
  let hass := ex_hass [light_a "on"; mkState "light.b" "light" "off" ∅] in
  ∃ hass' g', _async_start hass (ex_group hass ["light.a"; "light.b"])
              = Ok (hass', g')
              ∧ _state g' = Some "on".
Proof. vm_compute. eexists _, _. split; reflexivity. Qed.

Example all_group_one_on :
  let hass := ex_hass [light_a "on"; mkState "light.b" "light" "off" ∅] in
  let g := Group_init lower partition_dot hass "group.demo"
             (Some ["light.a"; "light.b"]) (Some true) in
  ∃ hass' g', _async_start hass g = Ok (hass', g') ∧ _state g' = Some "off".
Proof. vm_compute. eexists _, _. split; reflexivity. Qed.

Example all_trackers_home :
  let hass := ex_hass [mkState "device_tracker.x" "device_tracker" "home" ∅;
                       mkState "device_tracker.y" "device_tracker" "home" ∅] in
  let g := Group_init lower partition_dot hass "group.demo"
             (Some ["device_tracker.x"; "device_tracker.y"]) (Some true) in
  ∃ hass' g', _async_start hass g = Ok (hass', g') ∧ _state g' = Some "home".
Proof. vm_compute. eexists _, _. split; reflexivity. Qed.

Example mixed_domains_generic_on :
  let hass := ex_hass [light_a "on";
                       mkState "device_tracker.x" "device_tracker" "home" ∅] in
  ∃ hass' g', _async_start hass (ex_group hass ["light.a"; "device_tracker.x"])
              = Ok (hass', g')
              ∧ _state g' = Some "on".
Proof. vm_compute. eexists _, _. split; reflexivity. Qed.

(** Added to a running host, the entity publishes its state at once; added
    before the host has started, it publishes nothing yet and the update
    waits for the start. *)
Example added_entity_publishes_at_once :
  states_get (GroupEntity.w_hass any_on_world) "light.all"
  = Some (mkState "light.all" "light" "on" ∅)
  ∧ GroupEntity.added_start_pending any_on_waiting = true
  ∧ states_get
      (GroupEntity.w_hass (GroupEntity.added_world any_on_waiting)) "light.all"
    = None.
Proof. vm_compute. done. Qed.

(** The committed listener publishes; a preview session does not, and once
    its disposer has been called the subscriptions are those of before. *)
Example committed_listener_publishes :
  let ev := mkEvent "light.a" (Some (light_a "off")) 1 in
  states_get (GroupEntity.w_hass any_on_dark_world) "light.all"
  = Some (mkState "light.all" "light" "on" ∅)
  ∧ states_get
      (GroupEntity.w_hass
         (GroupEntity.committed_listener ev any_on_dark_world)) "light.all"
    = Some (mkState "light.all" "light" "off" ∅).
Proof. vm_compute. done. Qed.

Example preview_session_publishes_nothing :
  let ev := mkEvent "light.a" (Some (light_a "off")) 1 in
  let session :=
    GroupEntity.run_preview any_on_dark_world
      [GroupEntity.StartPreview; GroupEntity.Notify ev; GroupEntity.Dispose 0] in
  states_get (GroupEntity.w_hass session.1) "light.all"
  = Some (mkState "light.all" "light" "on" ∅)
  ∧ subscriptions (GroupEntity.w_hass session.1)
    = subscriptions (GroupEntity.w_hass any_on_dark_world)
  ∧ map GroupEntity.cs_state (GroupEntity.w_reported session.1)
    = ["off"; "off"].
Proof. vm_compute. done. Qed.

(** * Further properties of the module *)

(** ** Membership *)

Section MembershipMore.

Variable str_lower : string → string.
Variable split_entity_id : string → string * string.

(** X1: [_set_tracked] overwrites: after two calls the membership is that
    of the last call alone, and a call leaves every other field of the group
    (aggregate, caches, combinator, assumed flag, subscription handle) as it
    was. *)
Theorem set_tracked_last_call_wins (hass1 hass2 : HomeAssistant)
    (ids1 ids2 : option (list string)) (g : Group) :
  _set_tracked str_lower split_entity_id hass2 ids2
    (_set_tracked str_lower split_entity_id hass1 ids1 g)
  = _set_tracked str_lower split_entity_id hass2 ids2 g
  ∧ (let g' := _set_tracked str_lower split_entity_id hass1 ids1 g in
     _state g' = _state g ∧ _on_off g' = _on_off g ∧ _assumed g' = _assumed g
     ∧ _on_states g' = _on_states g ∧ mode g' = mode g
     ∧ _assumed_state g' = _assumed_state g
     ∧ _async_unsub_state_changed g' = _async_unsub_state_changed g).
Proof.
  split.
  - destruct ids2 as [[|id2 ids2]|], ids1 as [[|id1 ids1]|]; reflexivity.
  - destruct ids1 as [[|id1 ids1]|]; simpl; done.
Qed.

Lemma acc_inv_single_value acc d :
  acc_inv split_entity_id acc →
  acc_single acc = Some d
  ↔ acc_trackable acc ≠ []
    ∧ ∀ x, x ∈ acc_trackable acc → (split_entity_id x).1 = d.
Proof.
  unfold acc_inv. destruct acc as [tg tb [d0|] mu]; simpl; destruct mu; try done.
  - intros [Hne Hall]. rewrite Forall_forall in Hall. split.
    + intros [= <-]. split; [done|]. intros x Hx. by apply Hall.
    + intros [_ Hd]. destruct tb as [|x tb]; [done|].
      f_equal. rewrite <- (Hall x), <- (Hd x); [done| |]; apply list_elem_of_here.
  - intros (x & y & Hx & Hy & Hxy). split; [done|].
    intros [_ Hd]. exfalso. apply Hxy. by rewrite (Hd x Hx), (Hd y Hy).
  - intros ->. split; [done|]. by intros [? _].
Qed.

(** X2: when the single active domain is set it is the domain of every
    trackable member, and it is set to [d] exactly when there is a trackable
    member and all of them have domain [d]. *)
Theorem single_active_domain_value (hass : HomeAssistant)
    (ids : option (list string)) (g : Group) (d : string) :
  let g' := _set_tracked str_lower split_entity_id hass ids g in
  single_active_domain g' = Some d
  ↔ trackable g' ≠ []
    ∧ ∀ x, x ∈ trackable g' → (split_entity_id x).1 = d.
Proof.
  intros g'. subst g'.
  destruct (set_tracked_fields str_lower split_entity_id hass ids g)
    as (acc & Hacc & _ & -> & ->).
  apply acc_inv_single_value. subst acc. by apply foldl_inv.
Qed.

End MembershipMore.

(** ** The caches *)

Lemma see_state_own_entry hass st g g0 :
  _on_off (_see_state hass st g) !! entity_id st
  = _on_off (_see_state hass st g0) !! entity_id st
  ∧ _assumed (_see_state hass st g) !! entity_id st
    = Some (attr_assumed_state st).
Proof.
  unfold _see_state.
  destruct (on_states_by_domain (registry hass) !! domain st); simpl;
    by rewrite !lookup_insert_eq.
Qed.

Lemma see_state_other_entries hass st g k :
  k ≠ entity_id st →
  _on_off (_see_state hass st g) !! k = _on_off g !! k
  ∧ _assumed (_see_state hass st g) !! k = _assumed g !! k.
Proof.
  intros Hk. unfold _see_state.
  destruct (on_states_by_domain (registry hass) !! domain st); simpl;
    by rewrite !lookup_insert_ne.
Qed.

Lemma see_state_on_states_grow hass st g :
  _on_states g ⊆ _on_states (_see_state hass st g).
Proof.
  unfold _see_state.
  destruct (on_states_by_domain (registry hass) !! domain st); simpl.
  - apply union_subseteq_l.
  - destruct (has_key _ _); [apply union_subseteq_r|].
    destruct (off_on_mapping _ !! _); [apply union_subseteq_r|done].
Qed.

(** X3: observing a member writes that member's entries only: the entries
    of every other member stay as they were in both caches, the member gets
    an on/off entry and its assumed flag, and no on-label is ever dropped. *)
Theorem see_state_touches_one_member (hass : HomeAssistant) (st : State)
    (g : Group) :
  let g' := _see_state hass st g in
  (∀ k, k ≠ entity_id st →
        _on_off g' !! k = _on_off g !! k ∧ _assumed g' !! k = _assumed g !! k)
  ∧ is_Some (_on_off g' !! entity_id st)
  ∧ _assumed g' !! entity_id st = Some (attr_assumed_state st)
  ∧ _on_states g ⊆ _on_states g'.
Proof.
  intros g'. subst g'.
  split; [intros k Hk; by apply see_state_other_entries|].
  split.
  - apply elem_of_dom. rewrite see_state_on_off_dom.
    apply elem_of_union_l, elem_of_singleton. done.
  - split; [apply (see_state_own_entry hass st g g)|].
    apply see_state_on_states_grow.
Qed.

Lemma foldl_reset_lookup hass base ids acc eid :
  (_on_off (foldl (reset_step hass) acc ids) !! eid
   = match states_get hass eid with
     | Some st =>
         if decide (eid ∈ ids)
         then _on_off (_see_state hass st base) !! eid
         else _on_off acc !! eid
     | None => _on_off acc !! eid
     end)
  ∧ (_assumed (foldl (reset_step hass) acc ids) !! eid
     = match states_get hass eid with
       | Some st =>
           if decide (eid ∈ ids) then Some (attr_assumed_state st)
           else _assumed acc !! eid
       | None => _assumed acc !! eid
       end).
Proof.
  revert acc. induction ids as [|x ids IH]; intros acc; simpl.
  - destruct (states_get hass eid); [|done]. done.
  - destruct (IH (reset_step hass acc x)) as [IHoo IHas].
    rewrite IHoo, IHas. clear IH IHoo IHas.
    destruct (decide (x = eid)) as [->|Hne].
    + unfold reset_step.
      destruct (states_get hass eid) as [st|] eqn:Hget; [|done].
      pose proof (states_get_entity_id _ _ _ Hget) as Hid.
      rewrite !(decide_True (P := eid ∈ eid :: ids)) by apply list_elem_of_here.
      destruct (see_state_own_entry hass st acc base) as [Hoo Has].
      rewrite Hid in Hoo, Has. rewrite Hoo, Has.
      by destruct (decide (eid ∈ ids)).
    + assert (Hsame : _on_off (reset_step hass acc x) !! eid = _on_off acc !! eid
                      ∧ _assumed (reset_step hass acc x) !! eid
                        = _assumed acc !! eid).
      { unfold reset_step.
        destruct (states_get hass x) as [sx|] eqn:Hx; [|done].
        apply see_state_other_entries.
        rewrite (states_get_entity_id _ _ _ Hx). done. }
      destruct Hsame as [-> ->].
      destruct (states_get hass eid) as [st|]; [|done].
      destruct (decide (eid ∈ ids)) as [Hin|Hnin].
      * rewrite !decide_True by (by apply list_elem_of_further). done.
      * rewrite !decide_False; [done| |];
          intros Hin; apply elem_of_cons in Hin as [->|Hin]; done.
Qed.

(** X4: after a full reset the caches hold exactly the trackable members
    that have a live state: such a member's on/off entry is the one that
    observing its live state alone records, its assumed entry is its live
    assumed flag, and every other id has no entry. *)
Theorem reset_tracked_state_lookup (hass : HomeAssistant) (g : Group)
    (eid : string) :
  let g' := _reset_tracked_state hass g in
  (∀ st, eid ∈ trackable g → states_get hass eid = Some st →
         _on_off g' !! eid
         = _on_off (_see_state hass st (with_caches ∅ ∅ ∅ g)) !! eid
         ∧ _assumed g' !! eid = Some (attr_assumed_state st))
  ∧ (eid ∉ trackable g ∨ states_get hass eid = None →
     _on_off g' !! eid = None ∧ _assumed g' !! eid = None).
Proof.
  intros g'. subst g'. unfold _reset_tracked_state.
  destruct (foldl_reset_lookup hass (with_caches ∅ ∅ ∅ g) (trackable g)
              (with_caches ∅ ∅ ∅ g) eid) as [Hoo Has].
  rewrite Hoo, Has. clear Hoo Has. split.
  - intros st Hin ->. rewrite !decide_True by done. done.
  - intros [Hnin| ->]; [|done].
    destruct (states_get hass eid); [|done].
    rewrite !decide_False by done. done.
Qed.

Lemma foldl_reset_shape hass g ids acc :
  (∃ a b c, acc = with_caches a b c g) →
  ∃ a b c, foldl (reset_step hass) acc ids = with_caches a b c g.
Proof.
  revert acc. induction ids as [|x ids IH]; intros acc Hacc; simpl; [done|].
  apply IH. destruct Hacc as (a & b & c & ->).
  unfold reset_step. destruct (states_get hass x) as [st|]; [|by eexists _, _, _].
  unfold _see_state.
  destruct (on_states_by_domain (registry hass) !! domain st); simpl;
    by eexists _, _, _.
Qed.

Lemma reset_tracked_state_shape hass g :
  ∃ a b c, _reset_tracked_state hass g = with_caches a b c g.
Proof.
  unfold _reset_tracked_state. apply foldl_reset_shape. by eexists _, _, _.
Qed.

(** X5: a full reset forgets the caches it finds: its result is the same
    whatever the three caches held before, so resetting twice is resetting
    once. *)
Theorem reset_tracked_state_idempotent (hass : HomeAssistant) (g : Group) :
  (∀ oo asm ons,
     _reset_tracked_state hass (with_caches oo asm ons g)
     = _reset_tracked_state hass g)
  ∧ _reset_tracked_state hass (_reset_tracked_state hass g)
    = _reset_tracked_state hass g.
Proof.
  split; [reflexivity|].
  destruct (reset_tracked_state_shape hass g) as (a & b & c & Hshape).
  rewrite Hshape at 1. reflexivity.
Qed.

(** ** Recompute *)

Lemma values_elem (m : gmap string bool) (b : bool) :
  b ∈ values m ↔ ∃ k, m !! k = Some b.
Proof.
  unfold values. rewrite list_elem_of_fmap. split.
  - intros ([k b'] & -> & Hin). exists k. by apply elem_of_map_to_list in Hin.
  - intros (k & Hk). exists (k, b). split; [done|]. by apply elem_of_map_to_list.
Qed.

(** X6: the combinator over a cache: [any] holds exactly when some cached
    member is on, [all] exactly when no cached member is off; on an empty
    cache [any] fails and [all] holds. *)
Theorem combinator_over_cache (m : gmap string bool) :
  (apply_mode mode_any (values m) = true ↔ ∃ k, m !! k = Some true)
  ∧ (apply_mode mode_all (values m) = true ↔ ∀ k, m !! k ≠ Some false)
  ∧ apply_mode mode_any (values ∅) = false
  ∧ apply_mode mode_all (values ∅) = true.
Proof.
  split; [|split; [|done]].
  - simpl. rewrite existsb_exists. split.
    + intros (b & Hin & ->). apply values_elem. by apply list_elem_of_In.
    + intros Hk. exists true. split; [|done].
      apply list_elem_of_In. by apply values_elem.
  - simpl. rewrite forallb_forall. split.
    + intros Hall k Hk.
      assert (Hin : false ∈ values m) by (apply values_elem; by exists k).
      apply list_elem_of_In in Hin. apply Hall in Hin. discriminate Hin.
    + intros Hnone b Hin. apply list_elem_of_In, values_elem in Hin as [k Hk].
      destruct b; [done|]. by destruct (Hnone k).
Qed.

Lemma see_changed_frame hass tr g :
  let g1 := see_changed hass tr g in
  _state g1 = _state g ∧ tracking g1 = tracking g ∧ trackable g1 = trackable g
  ∧ single_active_domain g1 = single_active_domain g ∧ mode g1 = mode g
  ∧ _assumed_state g1 = _assumed_state g
  ∧ _async_unsub_state_changed g1 = _async_unsub_state_changed g.
Proof.
  destruct tr as [s|]; simpl; [apply see_state_frame|done].
Qed.

Lemma see_state_context hass st g :
  _context (_see_state hass st g) = _context g
  ∧ group_entity_id (_see_state hass st g) = group_entity_id g.
Proof.
  unfold _see_state.
  destruct (on_states_by_domain (registry hass) !! domain st); simpl; done.
Qed.

(** What a recompute returns, field by field. *)
Lemma update_group_state_fields hass tr g :
  ∃ g', _async_update_group_state hass tr g = Ok g'
    ∧ _on_off g' = _on_off (see_changed hass tr g)
    ∧ _assumed g' = _assumed (see_changed hass tr g)
    ∧ _on_states g' = _on_states (see_changed hass tr g)
    ∧ tracking g' = tracking g ∧ trackable g' = trackable g
    ∧ single_active_domain g' = single_active_domain g ∧ mode g' = mode g
    ∧ _async_unsub_state_changed g' = _async_unsub_state_changed g
    ∧ _context g' = _context g ∧ group_entity_id g' = group_entity_id g.
Proof.
  rewrite update_group_state_closed_form.
  set (g1 := see_changed hass tr g).
  set (g2 := update_assumed_state tr g1).
  assert (H1 : tracking g1 = tracking g ∧ trackable g1 = trackable g
               ∧ single_active_domain g1 = single_active_domain g
               ∧ mode g1 = mode g
               ∧ _async_unsub_state_changed g1 = _async_unsub_state_changed g
               ∧ _context g1 = _context g
               ∧ group_entity_id g1 = group_entity_id g).
  { subst g1. destruct tr as [s|]; simpl; [|done].
    destruct (see_state_frame hass s g) as (_ & ? & ? & ? & ? & _ & ?).
    destruct (see_state_context hass s g) as [? ?]. done. }
  assert (H2 : _on_off g2 = _on_off g1 ∧ _assumed g2 = _assumed g1
               ∧ _on_states g2 = _on_states g1 ∧ tracking g2 = tracking g1
               ∧ trackable g2 = trackable g1
               ∧ single_active_domain g2 = single_active_domain g1
               ∧ mode g2 = mode g1
               ∧ _async_unsub_state_changed g2 = _async_unsub_state_changed g1
               ∧ _context g2 = _context g1
               ∧ group_entity_id g2 = group_entity_id g1).
  { subst g2. unfold update_assumed_state. destruct tr as [s|]; simpl; [|done].
    destruct (_assumed_state g1 && negb (attr_assumed_state s)); simpl; [done|].
    destruct (attr_assumed_state s); simpl; done. }
  destruct H1 as (? & ? & ? & ? & ? & ? & ?).
  destruct H2 as (? & ? & ? & ? & ? & ? & ? & ? & ? & ?).
  repeat case_decide; try destruct (apply_mode _ _);
    eexists; (split; [reflexivity|]); simpl; repeat split; congruence.
Qed.

(** X7: a recompute changes the aggregate and the assumed flag only: the
    membership, the combinator, the subscription handle and the context are
    those it found, and the caches are those it found once the changed state
    (if any) has been observed; without a changed state the caches are
    untouched. *)
Theorem update_group_state_frame (hass : HomeAssistant) (tr : option State)
    (g : Group) :
  ∃ g', _async_update_group_state hass tr g = Ok g'
    ∧ _on_off g' = _on_off (see_changed hass tr g)
    ∧ _assumed g' = _assumed (see_changed hass tr g)
    ∧ _on_states g' = _on_states (see_changed hass tr g)
    ∧ (tr = None →
       _on_off g' = _on_off g ∧ _assumed g' = _assumed g
       ∧ _on_states g' = _on_states g)
    ∧ tracking g' = tracking g ∧ trackable g' = trackable g
    ∧ single_active_domain g' = single_active_domain g ∧ mode g' = mode g
    ∧ _async_unsub_state_changed g' = _async_unsub_state_changed g
    ∧ _context g' = _context g.
Proof.
  destruct (update_group_state_fields hass tr g)
    as (g' & Hrun & Hoo & Has & Hons & ? & ? & ? & ? & ? & ? & _).
  exists g'. do 4 (split; [done|]). split; [|done].
  intros ->. simpl in *. done.
Qed.

(** X8: the public query never carries the old aggregate over: its result
    is the same whatever the aggregate was before, and it is unknown when no
    member is known or no on-label is. *)
Theorem async_update_group_state_fresh (hass : HomeAssistant) (g : Group) :
  (∀ s, async_update_group_state hass (with_state s g)
        = async_update_group_state hass g)
  ∧ ∃ g', async_update_group_state hass g = Ok g'
          ∧ (_on_off g = ∅ ∨ _on_states g = ∅ → _state g' = None).
Proof.
  split; [reflexivity|].
  unfold async_update_group_state.
  rewrite update_group_state_closed_form. simpl.
  case_decide as Hoo; [eexists; split; [reflexivity|done]|].
  case_decide as Hsize; [eexists; split; [reflexivity|done]|].
  assert (Hons : _on_states g ≠ ∅).
  { intros Hempty. apply Hsize. by rewrite Hempty. }
  destruct (on_state_local_assigned hass
              (update_assumed_state None (with_state None g)) Hsize) as [l Hl].
  destruct (apply_mode _ _); eexists; (split; [reflexivity|]);
    intros [?|?]; done.
Qed.

Lemma size_gt_one_not_singleton (s : gset string) :
  1 < size s → size s ≠ 1 ∧ size s ≠ 0.
Proof. lia. Qed.

(** X9: in a recompute that finds the group on: a single known on-label
    is the aggregate; with several on-labels and a single active domain the
    aggregate is the one live on-label that detection finds, or the generic
    "on" when it finds none or several; with several on-labels and no single
    active domain it is the generic "on". *)
Theorem group_on_state (hass : HomeAssistant) (tr : option State) (g : Group) :
  _on_off (see_changed hass tr g) ≠ ∅ →
  apply_mode (mode g) (values (_on_off (see_changed hass tr g))) = true →
  ∃ g', _async_update_group_state hass tr g = Ok g'
    ∧ (_on_states (see_changed hass tr g) = ∅ → _state g' = None)
    ∧ (∀ l, _on_states (see_changed hass tr g) = {[l]} → _state g' = Some l)
    ∧ (1 < size (_on_states (see_changed hass tr g)) →
       (truthy (single_active_domain g) = false →
        _state g' = Some STATE_ON)
       ∧ (truthy (single_active_domain g) = true →
          (∀ l, _detect_specific_on_off_state hass true g = {[l]} →
                _state g' = Some l)
          ∧ (size (_detect_specific_on_off_state hass true g) ≠ 1 →
             _state g' = Some STATE_ON))).
Proof.
  set (g1 := see_changed hass tr g). intros Hoo Hon.
  rewrite update_group_state_closed_form. fold g1.
  set (g2 := update_assumed_state tr g1).
  destruct (update_assumed_state_frame tr g1)
    as (_ & Htb & Hsad & Hoo2 & _ & Hons2 & Hmode2 & _).
  fold g2 in Htb, Hsad, Hoo2, Hons2, Hmode2.
  destruct (see_changed_frame hass tr g) as (_ & _ & Htb1 & Hsad1 & Hmode1 & _).
  fold g1 in Htb1, Hsad1, Hmode1.
  rewrite decide_False by exact Hoo.
  rewrite Hmode2, Hoo2, Hmode1, Hon, Hons2.
  assert (Hdetect : _detect_specific_on_off_state hass true g2
                    = _detect_specific_on_off_state hass true g).
  { unfold _detect_specific_on_off_state. by rewrite Htb, Htb1. }
  case_decide as Hsize.
  - (* no on-label known *)
    eexists. split; [reflexivity|]. simpl.
    apply size_empty_iff, leibniz_equiv in Hsize.
    split; [done|]. rewrite Hsize. split.
    + intros l Hl. exfalso. eapply (not_elem_of_empty (C := gset string) l).
      rewrite Hl. by apply elem_of_singleton.
    + rewrite size_empty. lia.
  - eexists. split; [reflexivity|]. cbn [_state with_state].
    unfold on_state_local. rewrite Hons2, Hsad, Hsad1, Hdetect.
    split.
    { intros Hempty. exfalso. apply Hsize. by rewrite Hempty. }
    split.
    + intros l Hl. rewrite Hl, size_singleton.
      rewrite decide_True by done. by rewrite elements_singleton.
    + intros Hmany.
      destruct (size_gt_one_not_singleton _ Hmany) as [Hne1 Hne0].
      rewrite decide_False by exact Hne1.
      rewrite (bool_decide_eq_true_2 _ Hne0), andb_true_r.
      split.
      * intros ->. done.
      * intros ->. split.
        -- intros l ->. by rewrite only_or_singleton.
        -- intros Hd. by rewrite only_or_other.
Qed.

Lemma group_on_state_witness :
  (_on_off (see_changed lit_hass None started_single.2) ≠ ∅
   ∧ apply_mode (mode started_single.2)
       (values (_on_off (see_changed lit_hass None started_single.2))) = true)
  ∧ ∃ g', _async_update_group_state lit_hass None started_single.2 = Ok g'
          ∧ _state g' = Some "on".
Proof.
  assert (Hne : _on_off (see_changed lit_hass None started_single.2) ≠ ∅).
  { intros Hempty. apply (f_equal (λ m, m !! "light.a")) in Hempty.
    vm_compute in Hempty. discriminate Hempty. }
  assert (Hon : apply_mode (mode started_single.2)
                  (values (_on_off (see_changed lit_hass None started_single.2)))
                = true) by (vm_compute; reflexivity).
  split; [exact (conj Hne Hon)|].
  destruct (group_on_state lit_hass None started_single.2 Hne Hon)
    as (g' & Hrun & _ & Hone & _).
  exists g'. split; [exact Hrun|].
  apply Hone. vm_compute. reflexivity.
Defined.

(** What the detection loop returns when asked for on-labels: a bound on
    the labels gathered, where each comes from, and, when the loop ran to
    the end, that no on-member was left out. *)
Lemma detect_loop_on hass ids (on off : gset string) :
  (size on ≤ 1)%nat →
  let r := (detect_loop hass true ids on off).1 in
  (size r ≤ 2)%nat
  ∧ on ⊆ r
  ∧ (∀ l, l ∈ r →
          l ∈ on
          ∨ ∃ eid st, eid ∈ ids ∧ states_get hass eid = Some st
                      ∧ state st = l
                      ∧ in_domain_on_states (registry hass) st = true)
  ∧ ((size r ≤ 1)%nat →
     ∀ eid st, eid ∈ ids → states_get hass eid = Some st →
               in_domain_on_states (registry hass) st = true →
               state st ∈ r).
Proof.
  revert on off. induction ids as [|x ids IH]; intros on off Hon; simpl.
  - split; [lia|]. split; [done|]. split; [by left|].
    intros _ eid st Hin. by apply not_elem_of_nil in Hin.
  - destruct (states_get hass x) as [sx|] eqn:Hx.
    2:{ destruct (IH on off Hon) as (Hsz & Hsub & Hsound & Hall).
        split; [done|]. split; [done|]. split.
        - intros l Hl. destruct (Hsound l Hl) as [?|(eid & st & ? & ? & ? & ?)];
            [by left|].
          right. exists eid, st. split; [by apply list_elem_of_further|done].
        - intros Hone eid st Hin Hget Hdom.
          apply elem_of_cons in Hin as [->|Hin]; [congruence|].
          by eapply Hall. }
    simpl. destruct (in_domain_on_states (registry hass) sx) eqn:Hdom; simpl.
    + set (on' := {[state sx]} ∪ on).
      assert (Hon' : (size on' ≤ 2)%nat).
      { subst on'. rewrite size_union_alt, size_singleton.
        pose proof (subseteq_size (on ∖ {[state sx]}) on) as Hle.
        assert (on ∖ {[state sx]} ⊆ on) as Hsub by apply subseteq_difference_l, reflexivity.
        specialize (Hle Hsub). lia. }
      assert (Hmine : ∃ eid st, eid ∈ x :: ids ∧ states_get hass eid = Some st
                                ∧ state st = state sx
                                ∧ in_domain_on_states (registry hass) st = true).
      { exists x, sx. split; [apply list_elem_of_here|done]. }
      case_decide as Hbreak; simpl.
      * (* the loop stops *)
        split; [done|]. split; [apply union_subseteq_r|]. split.
        -- intros l Hl. apply elem_of_union in Hl as [Hl|Hl]; [|by left].
           apply elem_of_singleton in Hl as ->. by right.
        -- intros Hone. fold on' in Hone. lia.
      * assert (Hsmall : (size on' ≤ 1)%nat) by lia.
        destruct (IH on' off Hsmall) as (Hsz & Hsub & Hsound & Hall).
        split; [done|]. split.
        { etrans; [|exact Hsub]. apply union_subseteq_r. }
        split.
        -- intros l Hl.
           destruct (Hsound l Hl) as [Hin|(eid & st & ? & ? & ? & ?)].
           ++ apply elem_of_union in Hin as [Hin|Hin]; [|by left].
              apply elem_of_singleton in Hin as ->. by right.
           ++ right. exists eid, st.
              split; [by apply list_elem_of_further|done].
        -- intros Hone eid st Hin Hget Hd.
           apply elem_of_cons in Hin as [->|Hin]; [|by eapply Hall].
           rewrite Hx in Hget. injection Hget as <-.
           apply Hsub, elem_of_union_l, elem_of_singleton. done.
    + assert (Hrest : ∀ off',
                let r := (detect_loop hass true ids on off').1 in
                (size r ≤ 2)%nat ∧ on ⊆ r
                ∧ (∀ l, l ∈ r →
                        l ∈ on
                        ∨ ∃ eid st, eid ∈ x :: ids
                                    ∧ states_get hass eid = Some st
                                    ∧ state st = l
                                    ∧ in_domain_on_states (registry hass) st
                                      = true)
                ∧ ((size r ≤ 1)%nat →
                   ∀ eid st, eid ∈ x :: ids → states_get hass eid = Some st →
                             in_domain_on_states (registry hass) st = true →
                             state st ∈ r)).
      { intros off'. destruct (IH on off' Hon) as (Hsz & Hsub & Hsound & Hall).
        split; [done|]. split; [done|]. split.
        - intros l Hl. destruct (Hsound l Hl) as [?|(eid & st & ? & ? & ? & ?)];
            [by left|].
          right. exists eid, st. split; [by apply list_elem_of_further|done].
        - intros Hone eid st Hin Hget Hd.
          apply elem_of_cons in Hin as [->|Hin]; [congruence|].
          by eapply Hall. }
      destruct (has_key _ _); apply Hrest.
Qed.

(** X10: asked for on-labels, detection returns at most two labels, each
    the live label of a trackable member for whose domain that label is
    registered as on; and when it returns at most one label, every live
    trackable member that is on for its domain reports a label it
    returned. *)
Theorem detect_on_labels (hass : HomeAssistant) (g : Group) :
  let r := _detect_specific_on_off_state hass true g in
  (size r ≤ 2)%nat
  ∧ (∀ l, l ∈ r →
          ∃ eid st labels,
            eid ∈ trackable g ∧ states_get hass eid = Some st ∧ state st = l
            ∧ on_states_by_domain (registry hass) !! domain st = Some labels
            ∧ l ∈ labels)
  ∧ ((size r ≤ 1)%nat →
     ∀ eid st labels,
       eid ∈ trackable g → states_get hass eid = Some st →
       on_states_by_domain (registry hass) !! domain st = Some labels →
       state st ∈ labels → state st ∈ r).
Proof.
  intros r. subst r. unfold _detect_specific_on_off_state.
  assert (Hzero : (size (∅ : gset string) ≤ 1)%nat) by (rewrite size_empty; lia).
  destruct (detect_loop_on hass (trackable g) ∅ ∅ Hzero)
    as (Hsz & _ & Hsound & Hall).
  split; [done|]. split.
  - intros l Hl.
    destruct (Hsound l Hl) as [Hin|(eid & st & Hin & Hget & Hst & Hdom)];
      [by apply not_elem_of_empty in Hin|].
    unfold in_domain_on_states in Hdom.
    destruct (on_states_by_domain (registry hass) !! domain st) as [labels|]
      eqn:Hlabels; [|done].
    apply andb_true_iff in Hdom as [_ Hmem].
    apply bool_decide_eq_true in Hmem.
    exists eid, st, labels. rewrite <- Hst. done.
  - intros Hone eid st labels Hin Hget Hlabels Hmem.
    apply (Hall Hone eid st Hin Hget).
    unfold in_domain_on_states. rewrite Hlabels.
    apply andb_true_iff. split; apply bool_decide_eq_true; [|done].
    intros Hempty. rewrite Hempty in Hmem. by apply not_elem_of_empty in Hmem.
Qed.

(** ** Cache consistency *)

Lemma see_state_consistent hass st g :
  dom (_on_off g) = dom (_assumed g) → caches_consistent (_see_state hass st g).
Proof.
  intros Hdom. split.
  - by rewrite see_state_on_off_dom, see_state_assumed_dom, Hdom.
  - intros Hempty. exfalso.
    assert (Hin : entity_id st ∈ dom (_on_off (_see_state hass st g))).
    { rewrite see_state_on_off_dom. apply elem_of_union_l, elem_of_singleton. done. }
    rewrite Hempty, dom_empty_L in Hin. by apply not_elem_of_empty in Hin.
Qed.

Lemma foldl_reset_consistent hass ids g :
  caches_consistent g → caches_consistent (foldl (reset_step hass) g ids).
Proof.
  revert g. induction ids as [|x ids IH]; intros g Hg; simpl; [done|].
  apply IH. unfold reset_step. destruct (states_get hass x); [|done].
  apply see_state_consistent, Hg.
Qed.

Lemma listener_total hass event g :
  ∃ hass' g', _async_state_changed_listener hass event g = Ok (hass', g').
Proof.
  unfold _async_state_changed_listener.
  destruct (_async_unsub_state_changed g); [|by eexists _, _].
  match goal with
  | |- context [_async_update_group_state ?h ?t ?x] =>
      destruct (update_group_state_total h t x) as [g' ->]
  end.
  by eexists _, _.
Qed.

(** X11: the caches stay consistent: in a constructed group, after a full
    reset, and, starting from consistent caches, after observing a member,
    after a recompute and after handling a notification, the two per-member
    caches have the same keys and on-labels are known only if some member
    is. *)
Theorem caches_stay_consistent (hass : HomeAssistant) :
  (∀ str_lower split_entity_id eid ids mode_flag,
     caches_consistent
       (Group_init str_lower split_entity_id hass eid ids mode_flag))
  ∧ (∀ g, caches_consistent (_reset_tracked_state hass g))
  ∧ (∀ st g, caches_consistent g → caches_consistent (_see_state hass st g))
  ∧ (∀ tr g, caches_consistent g →
       ∃ g', _async_update_group_state hass tr g = Ok g'
             ∧ caches_consistent g')
  ∧ (∀ event g, caches_consistent g →
       ∃ hass' g', _async_state_changed_listener hass event g = Ok (hass', g')
                   ∧ caches_consistent g').
Proof.
  assert (Hreset : ∀ g, caches_consistent (_reset_tracked_state hass g)).
  { intros g. unfold _reset_tracked_state. apply foldl_reset_consistent.
    split; simpl; [by rewrite !dom_empty_L|done]. }
  assert (Hupdate : ∀ tr g, caches_consistent g →
            ∃ g', _async_update_group_state hass tr g = Ok g'
                  ∧ caches_consistent g').
  { intros tr g Hg.
    destruct (update_group_state_fields hass tr g)
      as (g' & Hrun & Hoo & Has & Hons & _).
    exists g'. split; [done|].
    assert (Hseen : caches_consistent (see_changed hass tr g)).
    { destruct tr as [s|]; simpl; [|done]. apply see_state_consistent, Hg. }
    destruct Hseen as [Hdom Hempty].
    split; [by rewrite Hoo, Has|]. rewrite Hoo, Hons. done. }
  split.
  { intros lo sp eid ids mode_flag. unfold Group_init.
    destruct ids as [[|id ids]|]; split; simpl; done. }
  split; [done|].
  split; [intros st g [Hdom _]; by apply see_state_consistent|].
  split; [done|].
  intros event g Hg. unfold _async_state_changed_listener.
  destruct (_async_unsub_state_changed g) as [h|]; [|by eexists _, _].
  match goal with
  | |- context [_async_update_group_state ?h ?t ?x] =>
      destruct (Hupdate t x) as (g' & -> & Hg')
  end.
  - destruct (ev_new_state event); [|apply Hreset].
    destruct Hg as [Hdom Hempty]. split; done.
  - by eexists _, _.
Qed.

(** ** Subscription lifecycle *)

(** What [_async_start_tracking] returns, field by field. *)
Lemma start_tracking_fields hass g :
  ∃ hass' g',
    _async_start_tracking hass g = Ok (hass', g')
    ∧ states hass' = states hass ∧ registry hass' = registry hass
    ∧ tracking g' = tracking g ∧ trackable g' = trackable g
    ∧ single_active_domain g' = single_active_domain g ∧ mode g' = mode g
    ∧ _on_off g' = _on_off g ∧ _assumed g' = _assumed g
    ∧ _on_states g' = _on_states g
    ∧ (if bool_decide (trackable g ≠ [])
          && bool_decide (_async_unsub_state_changed g = None)
       then _async_unsub_state_changed g'
            = Some (fresh_handle (subscriptions hass))
            ∧ subscriptions hass'
              = subscriptions hass
                ++ [mkSub (fresh_handle (subscriptions hass)) (trackable g)
                      GroupListener]
       else _async_unsub_state_changed g' = _async_unsub_state_changed g
            ∧ subscriptions hass' = subscriptions hass).
Proof.
  unfold _async_start_tracking.
  destruct (trackable g) as [|x tb] eqn:Htb;
    destruct (_async_unsub_state_changed g) as [h|] eqn:Hh; simpl.
  1,2,3:
    destruct (update_group_state_fields hass None g)
      as (g' & -> & Hoo & Has & Hons & Ht & Htb' & Hs & Hm & Hh' & _);
    simpl in *; exists hass, g'; rewrite Htb' ; repeat split; congruence.
  match goal with
  | |- context [_async_update_group_state ?h ?t ?x] =>
      destruct (update_group_state_fields h t x)
        as (g' & -> & Hoo & Has & Hons & Ht & Htb' & Hs & Hm & Hh' & _)
  end.
  simpl in *. eexists _, g'. split; [reflexivity|]. simpl.
  rewrite Htb'. repeat split; congruence.
Qed.

(** X12: [_async_start_tracking] never subscribes twice: a group that is
    already subscribed, or has nothing trackable, leaves the host's
    subscriptions and its own handle as they are; otherwise exactly one
    subscription, for exactly the trackable members, is added under a token
    no live subscription carries, and that token becomes the handle; calling
    it again then adds nothing. *)
Theorem start_tracking_subscribes_once (hass : HomeAssistant) (g : Group) :
  ∃ hass' g',
    _async_start_tracking hass g = Ok (hass', g')
    ∧ (is_Some (_async_unsub_state_changed g) ∨ trackable g = [] →
       subscriptions hass' = subscriptions hass
       ∧ _async_unsub_state_changed g' = _async_unsub_state_changed g)
    ∧ (_async_unsub_state_changed g = None → trackable g ≠ [] →
       ∃ h, _async_unsub_state_changed g' = Some h
            ∧ subscriptions hass'
              = subscriptions hass ++ [mkSub h (trackable g) GroupListener]
            ∧ ∀ s, s ∈ subscriptions hass → sub_handle s ≠ h)
    ∧ ∃ hass'' g'',
        _async_start_tracking hass' g' = Ok (hass'', g'')
        ∧ subscriptions hass'' = subscriptions hass'
        ∧ _async_unsub_state_changed g'' = _async_unsub_state_changed g'.
Proof.
  destruct (start_tracking_fields hass g)
    as (hass' & g' & Hrun & _ & _ & _ & Htb & _ & _ & _ & _ & _ & Hsub).
  exists hass', g'. split; [exact Hrun|].
  split; [|split].
  - intros [[h Hh]|Hnil].
    + rewrite Hh in Hsub. rewrite (bool_decide_eq_false_2 (Some h = None)) in Hsub
        by done.
      rewrite andb_false_r in Hsub. destruct Hsub. by rewrite Hh.
    + rewrite (bool_decide_eq_false_2 (trackable g ≠ [])) in Hsub
        by (intros Hne; by apply Hne).
      simpl in Hsub. by destruct Hsub.
  - intros Hnone Hne.
    rewrite (bool_decide_eq_true_2 _ Hne), (bool_decide_eq_true_2 _ Hnone)
      in Hsub.
    simpl in Hsub. destruct Hsub as [Hh Hsubs].
    eexists. split; [exact Hh|]. split; [exact Hsubs|].
    intros s Hs. pose proof (max_handle_ge s _ Hs). unfold fresh_handle. lia.
  - destruct (start_tracking_fields hass' g')
      as (hass'' & g'' & Hrun2 & _ & _ & _ & _ & _ & _ & _ & _ & _ & Hsub2).
    exists hass'', g''. split; [exact Hrun2|].
    destruct (bool_decide (trackable g ≠ [])) eqn:Hne;
      destruct (bool_decide (_async_unsub_state_changed g = None)) eqn:Hnone;
      simpl in Hsub; destruct Hsub as [Hh Hsubs].
    + rewrite Hh, (bool_decide_eq_false_2 (Some _ = None)), andb_false_r
        in Hsub2 by done.
      destruct Hsub2 as [H1 H2]. split; [done|congruence].
    + rewrite Hh, Hnone, andb_false_r in Hsub2.
      destruct Hsub2 as [H1 H2]. split; [done|congruence].
    + rewrite Htb, Hne in Hsub2. simpl in Hsub2.
      destruct Hsub2 as [H1 H2]. split; [done|congruence].
    + rewrite Htb, Hne in Hsub2. simpl in Hsub2.
      destruct Hsub2 as [H1 H2]. split; [done|congruence].
Qed.

Lemma call_unsub_fresh hass ids l :
  subscriptions
    (call_unsub (fresh_handle (subscriptions hass))
       (set_subscriptions
          (subscriptions hass
           ++ [mkSub (fresh_handle (subscriptions hass)) ids l]) hass))
  = subscriptions hass.
Proof.
  unfold call_unsub. simpl. rewrite List.filter_app. simpl.
  rewrite Nat.eqb_refl. simpl. rewrite app_nil_r.
  apply filter_keeps_older. unfold fresh_handle. lia.
Qed.

(** X13: [_async_stop] clears the handle and releases the subscription
    filed under it and no other; it touches nothing else in the group and
    leaves the published states alone; stopping twice is stopping once. *)
Theorem async_stop_releases_own (hass : HomeAssistant) (g : Group) :
  let hass' := (_async_stop hass g).1 in
  let g' := (_async_stop hass g).2 in
  _async_unsub_state_changed g' = None
  ∧ g' = with_unsub None g
  ∧ states hass' = states hass
  ∧ (∀ s, s ∈ subscriptions hass' ↔
          s ∈ subscriptions hass
          ∧ Some (sub_handle s) ≠ _async_unsub_state_changed g)
  ∧ _async_stop hass' g' = (hass', g').
Proof.
  unfold _async_stop.
  destruct (_async_unsub_state_changed g) as [h|] eqn:Hh; simpl.
  - split; [done|]. split; [done|]. split; [done|]. split; [|done].
    intros s. rewrite list_elem_of_In, filter_In, <- list_elem_of_In.
    rewrite negb_true_iff, Nat.eqb_neq. split.
    + intros [Hs Hne]. split; [done|]. intros [= Heq]. done.
    + intros [Hs Hne]. split; [done|]. intros Heq. apply Hne. by rewrite Heq.
  - split; [done|]. split.
    { destruct g; simpl in *. by rewrite Hh. }
    split; [done|]. split; [|by rewrite Hh].
    intros s. split; [by intros Hs|]. by intros [Hs _].
Qed.

Lemma see_state_caches_ext hass1 hass2 st g1 g2 :
  registry hass1 = registry hass2 →
  _on_off g1 = _on_off g2 ∧ _assumed g1 = _assumed g2
  ∧ _on_states g1 = _on_states g2 →
  _on_off (_see_state hass1 st g1) = _on_off (_see_state hass2 st g2)
  ∧ _assumed (_see_state hass1 st g1) = _assumed (_see_state hass2 st g2)
  ∧ _on_states (_see_state hass1 st g1) = _on_states (_see_state hass2 st g2).
Proof.
  intros Hreg (Hoo & Has & Hons). unfold _see_state.
  rewrite Hreg, Hoo, Has, Hons.
  destruct (on_states_by_domain (registry hass2) !! domain st); simpl; done.
Qed.

Lemma foldl_reset_caches_ext hass1 hass2 ids g1 g2 :
  states hass1 = states hass2 → registry hass1 = registry hass2 →
  _on_off g1 = _on_off g2 ∧ _assumed g1 = _assumed g2
  ∧ _on_states g1 = _on_states g2 →
  _on_off (foldl (reset_step hass1) g1 ids)
  = _on_off (foldl (reset_step hass2) g2 ids)
  ∧ _assumed (foldl (reset_step hass1) g1 ids)
    = _assumed (foldl (reset_step hass2) g2 ids)
  ∧ _on_states (foldl (reset_step hass1) g1 ids)
    = _on_states (foldl (reset_step hass2) g2 ids).
Proof.
  intros Hst Hreg. revert g1 g2.
  induction ids as [|x ids IH]; intros g1 g2 Hc; simpl; [done|].
  apply IH. unfold reset_step, states_get. rewrite Hst.
  destruct (find _ (states hass2)); [|done].
  by apply see_state_caches_ext.
Qed.

(** The caches a full reset builds depend on the live states, the registry
    and the trackable members only. *)
Lemma reset_caches_ext hass1 hass2 g1 g2 :
  states hass1 = states hass2 → registry hass1 = registry hass2 →
  trackable g1 = trackable g2 →
  _on_off (_reset_tracked_state hass1 g1) = _on_off (_reset_tracked_state hass2 g2)
  ∧ _assumed (_reset_tracked_state hass1 g1)
    = _assumed (_reset_tracked_state hass2 g2)
  ∧ _on_states (_reset_tracked_state hass1 g1)
    = _on_states (_reset_tracked_state hass2 g2).
Proof.
  intros Hst Hreg Htb. unfold _reset_tracked_state. rewrite Htb.
  by apply foldl_reset_caches_ext.
Qed.

Lemma reset_frame hass g :
  let g' := _reset_tracked_state hass g in
  _state g' = _state g ∧ tracking g' = tracking g ∧ trackable g' = trackable g
  ∧ single_active_domain g' = single_active_domain g ∧ mode g' = mode g
  ∧ _assumed_state g' = _assumed_state g
  ∧ _async_unsub_state_changed g' = _async_unsub_state_changed g
  ∧ _context g' = _context g ∧ group_entity_id g' = group_entity_id g.
Proof.
  destruct (reset_tracked_state_shape hass g) as (a & b & c & ->). done.
Qed.

(** What [_async_start] returns. *)
Lemma async_start_fields hass g :
  ∃ hass1 g',
    _async_start_tracking hass (_reset_tracked_state hass g) = Ok (hass1, g')
    ∧ _async_start hass g = Ok (write_group_state hass1 g', g').
Proof.
  destruct (start_tracking_fields hass (_reset_tracked_state hass g))
    as (hass1 & g' & Hrun & _).
  exists hass1, g'. split; [exact Hrun|].
  unfold _async_start. by rewrite Hrun.
Qed.

(** X14: from an unsubscribed group, [_async_start] subscribes exactly
    when there is a trackable member, and a following [_async_stop] gives
    back the subscriptions the host had before the start and an
    unsubscribed group. *)
Theorem start_then_stop_restores (hass : HomeAssistant) (g : Group) :
  _async_unsub_state_changed g = None →
  ∃ hass' g',
    _async_start hass g = Ok (hass', g')
    ∧ (is_Some (_async_unsub_state_changed g') ↔ trackable g ≠ [])
    ∧ subscriptions (_async_stop hass' g').1 = subscriptions hass
    ∧ _async_unsub_state_changed (_async_stop hass' g').2 = None.
Proof.
  intros Hnone.
  destruct (async_start_fields hass g) as (hass1 & g' & Htrack & Hrun).
  exists (write_group_state hass1 g'), g'. split; [exact Hrun|].
  destruct (start_tracking_fields hass (_reset_tracked_state hass g))
    as (hass1' & g1' & Htrack' & _ & _ & _ & _ & _ & _ & _ & _ & _ & Hsub).
  rewrite Htrack in Htrack'. injection Htrack' as <- <-.
  destruct (reset_frame hass g) as (_ & _ & Htb & _ & _ & _ & Hh & _).
  rewrite Htb, Hh, Hnone in Hsub.
  rewrite (bool_decide_eq_true_2 (None = None)), andb_true_r in Hsub by done.
  split; [|split; [|apply async_stop_unsubscribed]].
  - destruct (bool_decide (trackable g ≠ [])) eqn:Hne.
    + apply bool_decide_eq_true in Hne. destruct Hsub as [-> _].
      split; [done|]. by eexists.
    + apply bool_decide_eq_false in Hne. destruct Hsub as [-> _].
      split; [by intros [? ?]|done].
  - unfold _async_stop.
    destruct (bool_decide (trackable g ≠ [])) eqn:Hne;
      destruct Hsub as [Hh' Hsubs]; rewrite Hh'; simpl.
    + rewrite Hsubs. rewrite List.filter_app. simpl.
      rewrite Nat.eqb_refl. simpl. rewrite app_nil_r.
      apply filter_keeps_older. unfold fresh_handle. lia.
    + exact Hsubs.
Qed.

Lemma start_then_stop_restores_witness :
  ∃ hass' g',
    _async_start lit_hass (ex_group lit_hass ["light.a"]) = Ok (hass', g')
    ∧ subscriptions (_async_stop hass' g').1 = subscriptions lit_hass.
Proof.
  destruct (start_then_stop_restores lit_hass (ex_group lit_hass ["light.a"])
              eq_refl) as (hass' & g' & Hrun & _ & Hsubs & _).
  exists hass', g'. split; [exact Hrun | exact Hsubs].
Defined.

(** X15: handling a notification never changes the membership, the
    combinator, the subscription handle or the host's subscriptions; for a
    subscribed group the event's context is recorded and the caches are
    those of a full reset when the member was removed, and those obtained by
    observing the new state otherwise. *)
Theorem listener_keeps_membership (hass : HomeAssistant) (event : Event)
    (g : Group) :
  ∃ hass' g',
    _async_state_changed_listener hass event g = Ok (hass', g')
    ∧ tracking g' = tracking g ∧ trackable g' = trackable g
    ∧ single_active_domain g' = single_active_domain g ∧ mode g' = mode g
    ∧ _async_unsub_state_changed g' = _async_unsub_state_changed g
    ∧ subscriptions hass' = subscriptions hass
    ∧ (is_Some (_async_unsub_state_changed g) →
       _context g' = Some (ev_context event)
       ∧ let seen := match ev_new_state event with
                     | Some st => _see_state hass st g
                     | None => _reset_tracked_state hass g
                     end in
         _on_off g' = _on_off seen ∧ _assumed g' = _assumed seen
         ∧ _on_states g' = _on_states seen).
Proof.
  unfold _async_state_changed_listener.
  destruct (_async_unsub_state_changed g) as [h|] eqn:Hh.
  2:{ exists hass, g. repeat split; done. }
  set (g1 := async_set_context (ev_context event) g).
  destruct (ev_new_state event) as [st|] eqn:Hnew.
  - destruct (update_group_state_fields hass (Some st) g1)
      as (g' & -> & Hoo & Has & Hons & Ht & Htb & Hs & Hm & Hh' & Hc & _).
    exists (write_group_state hass g'), g'. simpl in *.
    do 5 (split; [done|]). split; [congruence|]. split; [done|].
    intros _. split; [done|].
    destruct (see_state_caches_ext hass hass st g1 g eq_refl) as (? & ? & ?);
      [done|]. repeat split; congruence.
  - destruct (update_group_state_fields hass None (_reset_tracked_state hass g1))
      as (g' & -> & Hoo & Has & Hons & Ht & Htb & Hs & Hm & Hh' & Hc & _).
    destruct (reset_frame hass g1) as (_ & Ht1 & Htb1 & Hs1 & Hm1 & _ & Hh1 & Hc1 & _).
    exists (write_group_state hass g'), g'. simpl in *.
    split; [done|]. repeat split; try congruence.
    all: destruct (reset_caches_ext hass hass g1 g eq_refl eq_refl eq_refl)
           as (? & ? & ?); congruence.
Qed.

(** ** Membership replacement and groups without trackable members *)

Section ReplacementFacts.

Variable str_lower : string → string.
Variable split_entity_id : string → string * string.

(** X16: membership replacement ends with the membership computed from
    the new ids and with the caches of a full reset over it; the group is
    subscribed afterwards exactly when it has a trackable member; its former
    subscription is released, and every other subscription of the host is
    kept. *)
Theorem update_tracked_entity_ids_rebuilds (hass : HomeAssistant)
    (entity_ids : option (list string)) (g : Group) :
  let fresh := _set_tracked str_lower split_entity_id hass entity_ids g in
  ∃ hass' g',
    async_update_tracked_entity_ids str_lower split_entity_id hass
      entity_ids g = Ok (hass', g')
    ∧ tracking g' = tracking fresh ∧ trackable g' = trackable fresh
    ∧ single_active_domain g' = single_active_domain fresh
    ∧ _on_off g' = _on_off (_reset_tracked_state hass fresh)
    ∧ _assumed g' = _assumed (_reset_tracked_state hass fresh)
    ∧ _on_states g' = _on_states (_reset_tracked_state hass fresh)
    ∧ (is_Some (_async_unsub_state_changed g') ↔ trackable g' ≠ [])
    ∧ (∀ s, s ∈ subscriptions hass →
            Some (sub_handle s) ≠ _async_unsub_state_changed g →
            s ∈ subscriptions hass')
    ∧ (∀ s, s ∈ subscriptions hass' →
            s ∈ subscriptions hass
            ∨ (Some (sub_handle s) = _async_unsub_state_changed g'
               ∧ sub_entity_ids s = trackable g'
               ∧ sub_listener s = GroupListener)).
Proof.
  intros fresh. unfold async_update_tracked_entity_ids.
  destruct (_async_stop hass g) as [hass1 g1] eqn:Hstop.
  assert (Hstop' : states hass1 = states hass ∧ registry hass1 = registry hass
                   ∧ g1 = with_unsub None g
                   ∧ ∀ s, s ∈ subscriptions hass1 ↔
                          s ∈ subscriptions hass
                          ∧ Some (sub_handle s) ≠ _async_unsub_state_changed g).
  { unfold _async_stop in Hstop.
    destruct (_async_unsub_state_changed g) as [h|] eqn:Hh;
      injection Hstop as <- <-; simpl.
    - do 3 (split; [done|]).
      intros s. rewrite list_elem_of_In, filter_In, <- list_elem_of_In.
      rewrite negb_true_iff, Nat.eqb_neq. split.
      + intros [Hs Hne]. split; [done|]. intros [= Heq]. done.
      + intros [Hs Hne]. split; [done|]. intros Heq. apply Hne. by rewrite Heq.
    - do 2 (split; [done|]). split.
      { destruct g; simpl in *. by rewrite Hh. }
      intros s. split; [by intros Hs|]. by intros [Hs _]. }
  destruct Hstop' as (Hst & Hreg & -> & Hsubs1).
  set (g2 := _set_tracked str_lower split_entity_id hass1 entity_ids
               (with_unsub None g)).
  assert (Hg2 : tracking g2 = tracking fresh ∧ trackable g2 = trackable fresh
                ∧ single_active_domain g2 = single_active_domain fresh
                ∧ _async_unsub_state_changed g2 = None).
  { subst g2 fresh. unfold _set_tracked. rewrite Hreg.
    destruct entity_ids as [[|id ids]|]; simpl; done. }
  destruct Hg2 as (Ht2 & Htb2 & Hs2 & Hh2).
  set (g3 := _reset_tracked_state hass1 g2).
  destruct (reset_frame hass1 g2) as (_ & Ht3 & Htb3 & Hs3 & _ & _ & Hh3 & _).
  fold g3 in Ht3, Htb3, Hs3, Hh3.
  destruct (async_start_fields hass1 g3) as (hass4 & g' & Htrack & ->).
  destruct (start_tracking_fields hass1 (_reset_tracked_state hass1 g3))
    as (hass4' & g4' & Htrack' & _ & _ & Ht & Htb & Hs & _ & Hoo & Has & Hons
        & Hsub).
  rewrite Htrack in Htrack'. injection Htrack' as <- <-.
  destruct (reset_frame hass1 g3) as (_ & Ht4 & Htb4 & Hs4 & _ & _ & Hh4 & _).
  exists (write_group_state hass4 g'), g'. split; [done|].
  split; [congruence|]. split; [congruence|]. split; [congruence|].
  destruct (reset_caches_ext hass1 hass g3 fresh Hst Hreg) as (Hc1 & Hc2 & Hc3);
    [congruence|].
  split; [congruence|]. split; [congruence|]. split; [congruence|].
  rewrite Htb4, Hh4 in Hsub. rewrite Hh3 in Hsub. rewrite Hh2 in Hsub.
  rewrite (bool_decide_eq_true_2 (None = None)), andb_true_r in Hsub by done.
  assert (Htb' : trackable g' = trackable g3) by congruence.
  simpl. rewrite Htb'.
  destruct (bool_decide (trackable g3 ≠ [])) eqn:Hne;
    destruct Hsub as [Hh' Hsubs]; rewrite Hh', Hsubs.
  - apply bool_decide_eq_true in Hne. split; [split; [done|by eexists]|].
    split.
    + intros s Hs' Hne'. apply elem_of_app. left. by apply Hsubs1.
    + intros s Hs'. apply elem_of_app in Hs' as [Hs'|Hs'].
      * left. by apply Hsubs1 in Hs' as [? _].
      * apply list_elem_of_singleton in Hs' as ->. right. simpl.
        split; [done|]. split; [congruence|done].
  - apply bool_decide_eq_false in Hne.
    split; [split; [by intros [? ?]|done]|].
    split.
    + intros s Hs' Hne'. by apply Hsubs1.
    + intros s Hs'. left. by apply Hsubs1 in Hs' as [? _].
Qed.

(** X17: a group all of whose requested members belong to excluded
    domains has no trackable member and no single active domain; starting
    it subscribes to nothing and leaves its aggregate unknown. *)
Theorem excluded_only_group_stays_unknown (hass : HomeAssistant)
    (eid : string) (ids : list string) (mode_flag : option bool) :
  (∀ x, x ∈ ids →
        (split_entity_id (str_lower x)).1 ∈ exclude_domains (registry hass)) →
  let g := Group_init str_lower split_entity_id hass eid (Some ids) mode_flag in
  tracking g = map str_lower ids
  ∧ trackable g = [] ∧ single_active_domain g = None
  ∧ ∃ hass' g',
      _async_start hass g = Ok (hass', g')
      ∧ subscriptions hass' = subscriptions hass
      ∧ _async_unsub_state_changed g' = None
      ∧ _state g' = None.
Proof.
  intros Hexcl g.
  assert (Htb : trackable g = []).
  { subst g. unfold Group_init. rewrite set_tracked_trackable. simpl.
    induction ids as [|x xs IH]; [done|]. simpl.
    rewrite filter_cons, decide_False.
    - apply IH. intros y Hy. apply Hexcl. by apply list_elem_of_further.
    - intros Hn. apply Hn, Hexcl, list_elem_of_here. }
  split; [subst g; unfold Group_init; by rewrite set_tracked_tracking|].
  split; [done|].
  split.
  { apply dec_stable. intros Hsome.
    subst g. unfold Group_init in *.
    apply set_tracked_single in Hsome as [Hne _]. done. }
  unfold _async_start, _reset_tracked_state, _async_start_tracking.
  rewrite Htb. simpl.
  assert (Hfresh : _async_unsub_state_changed g = None ∧ _state g = None).
  { subst g. unfold Group_init. destruct ids as [|x xs]; simpl; done. }
  destruct Hfresh as [Hh Hstate].
  unfold _async_update_group_state. simpl. rewrite ?Htb. simpl.
  eexists _, _. split; [reflexivity|]. simpl. done.
Qed.

End ReplacementFacts.

Lemma excluded_only_group_stays_unknown_witness :
  let g := Group_init lower partition_dot (ex_hass []) "group.scenes"
             (Some ["Scene.Evening"; "scene.night"]) None in
  trackable g = []
  ∧ ∃ hass' g', _async_start (ex_hass []) g = Ok (hass', g')
                ∧ _state g' = None.
Proof.
  intros g.
  assert (Hexcl : ∀ x, x ∈ ["Scene.Evening"; "scene.night"] →
            (partition_dot (lower x)).1 ∈ exclude_domains (registry (ex_hass []))).
  { intros x Hx. apply elem_of_cons in Hx as [->|Hx];
      [|apply list_elem_of_singleton in Hx as ->];
      vm_compute; reflexivity. }
  destruct (excluded_only_group_stays_unknown lower partition_dot (ex_hass [])
              "group.scenes" ["Scene.Evening"; "scene.night"] None Hexcl)
    as (_ & Htb & _ & hass' & g' & Hrun & _ & _ & Hstate).
  split; [exact Htb|]. exists hass', g'. split; [exact Hrun | exact Hstate].
Defined.

(** ** Starting and disposing a preview *)

Section PreviewMore.
Context {E : Type} `{GroupEntity.Impl E}.
Import GroupEntity.

Lemma set_subscriptions_same (hass : HomeAssistant) :
  set_subscriptions (subscriptions hass) hass = hass.
Proof. by destruct hass. Qed.

(** X18: starting a preview reports once, at once, the state calculated
    from the entity it has just updated, and publishes nothing; when the
    entity has members it adds exactly one subscription, for those members;
    and calling the disposer it returns leaves the host exactly as it was
    before the preview was started. *)
Theorem preview_start_then_dispose (w : @World E) :
  let w' := (async_start_preview w).1 in
  let h := (async_start_preview w).2 in
  w_entity w'
  = async_update_group_state (w_hass w)
      (update_features_from_states (w_hass w) (w_entity w))
  ∧ w_reported w' = w_reported w ++ [_async_calculate_state (w_entity w')]
  ∧ (_entity_ids (w_entity w') ≠ [] →
     subscriptions (w_hass w')
     = subscriptions (w_hass w)
       ++ [mkSub h (_entity_ids (w_entity w')) PreviewListener])
  ∧ states (w_hass w') = states (w_hass w)
  ∧ call_unsub h (w_hass w') = w_hass w.
Proof.
  unfold async_start_preview, preview_listener,
    async_track_state_change_event. simpl.
  do 4 (split; [done|]).
  unfold call_unsub. simpl. rewrite List.filter_app. simpl.
  rewrite Nat.eqb_refl. simpl. rewrite app_nil_r.
  rewrite filter_keeps_older by (unfold fresh_handle; lia).
  destruct (w_hass w); done.
Qed.

End PreviewMore.

(** ** The factory *)

Section FactoryFacts.

Variable str_lower : string → string.
Variable split_entity_id : string → string * string.
Variable async_generate_entity_id : string → string → string.

Abbreviation create :=
  (create_groups str_lower split_entity_id async_generate_entity_id).

Lemma count_unordered_snoc rqs rq :
  count_unordered (rqs ++ [rq])
  = count_unordered rqs + (if rq_order rq is None then 1 else 0).
Proof.
  unfold count_unordered. rewrite List.filter_app, length_app. simpl.
  destruct (rq_order rq); simpl; done.
Qed.

Lemma create_groups_snoc hass c rqs rq :
  create hass c (rqs ++ [rq])
  = let '(counter, made) := create hass c rqs in
    let '(counter', o) :=
      async_create_group_entity str_lower split_entity_id
        async_generate_entity_id hass counter rq in
    (counter', made ++ [o]).
Proof. unfold create_groups. by rewrite foldl_snoc. Qed.

Lemma create_groups_counter hass c rqs :
  (create hass c rqs).1
  = (if count_unordered rqs is O then c
     else Some (default 0 c + Z.of_nat (count_unordered rqs))%Z)
  ∧ length (create hass c rqs).2 = length rqs.
Proof.
  induction rqs as [|rq rqs IH] using rev_ind; [done|].
  rewrite create_groups_snoc, count_unordered_snoc, length_app.
  destruct (create hass c rqs) as [counter made]. simpl in IH.
  destruct IH as [-> Hlen].
  unfold async_create_group_entity, assign_order.
  destruct (rq_order rq) as [o|]; simpl; rewrite length_app, Hlen; simpl.
  - rewrite Nat.add_0_r. done.
  - split; [|done]. rewrite Nat.add_1_r.
    destruct (count_unordered rqs) as [|n]; simpl; f_equal; lia.
Qed.

(** X19: the factory numbers the groups it orders itself consecutively:
    a group created with an explicit order gets that order and leaves the
    counter alone; a group created without one gets the counter's value
    (0 when the counter is not there yet), that is the initial value plus
    the number of groups ordered by the factory before it, and the counter
    ends one past the last order it gave. *)
Theorem create_groups_orders (hass : HomeAssistant) (c : option Z)
    (rqs : list GroupRequest) :
  let made := (create hass c rqs).2 in
  length made = length rqs
  ∧ (∀ i rq o, rqs !! i = Some rq → made !! i = Some o →
       _order o
       = Some (match rq_order rq with
               | Some z => z
               | None => (default 0 c
                          + Z.of_nat (count_unordered (take i rqs)))%Z
               end))
  ∧ (create hass c rqs).1
    = (if count_unordered rqs is O then c
       else Some (default 0 c + Z.of_nat (count_unordered rqs))%Z).
Proof.
  intros made. subst made.
  destruct (create_groups_counter hass c rqs) as [Hcounter Hlen].
  split; [done|]. split; [|done]. clear Hcounter Hlen.
  induction rqs as [|rq rqs IH] using rev_ind; [done|].
  intros i rq' o Hrq Ho.
  rewrite create_groups_snoc in Ho.
  destruct (create_groups_counter hass c rqs) as [Hcounter Hlen].
  destruct (create hass c rqs) as [counter made]. simpl in *.
  destruct (async_create_group_entity str_lower split_entity_id
              async_generate_entity_id hass counter rq) as [counter' o']
    eqn:Hmake.
  simpl in Ho.
  destruct (decide (i < length rqs)) as [Hlt|Hge].
  - rewrite lookup_app_l in Hrq by done.
    rewrite lookup_app_l in Ho by lia.
    rewrite take_app_le by lia. by eapply IH.
  - assert (i = length rqs) as ->.
    { apply lookup_lt_Some in Hrq. rewrite length_app in Hrq. simpl in Hrq. lia. }
    rewrite list_lookup_middle in Hrq by done. injection Hrq as <-.
    rewrite <- Hlen in Ho. rewrite list_lookup_middle in Ho by done.
    injection Ho as <-.
    rewrite take_app_length.
    unfold async_create_group_entity, assign_order in Hmake.
    destruct (rq_order rq) as [z|]; injection Hmake as <- <-; simpl; [done|].
    rewrite Hcounter. f_equal.
    destruct (count_unordered rqs) as [|n]; simpl; lia.
Qed.

(** X20: the attributes of a group the factory made list every requested
    member, lower-cased and in order, whether trackable or not, together
    with the order the group was given; the "auto" attribute is there
    exactly when the group was created by a service; renaming the group or
    changing its icon changes none of them. *)
Theorem created_group_attributes (hass : HomeAssistant) (c : option Z)
    (rq : GroupRequest) :
  let o := (async_create_group_entity str_lower split_entity_id
              async_generate_entity_id hass c rq).2 in
  extra_state_attributes o !! ATTR_ENTITY_ID
  = Some (AttrIds (map str_lower (default [] (rq_entity_ids rq))))
  ∧ extra_state_attributes o !! ATTR_ORDER = Some (AttrOrder (_order o))
  ∧ extra_state_attributes o !! ATTR_AUTO
    = (if rq_created_by_service rq then Some AttrTrue else None)
  ∧ (∀ name icon,
       extra_state_attributes (set_icon icon (set_name name o))
       = extra_state_attributes o).
Proof.
  intros o. subst o.
  unfold async_create_group_entity.
  destruct (assign_order (rq_order rq) c) as [order c']. simpl.
  unfold extra_state_attributes, Group_init. simpl.
  rewrite set_tracked_tracking.
  destruct (rq_created_by_service rq); repeat split.
Qed.

End FactoryFacts.

(** ** Publication *)

Lemma find_filter_other (sts : list State) (eid other : string) :
  eid ≠ other →
  List.find (fun s => String.eqb (entity_id s) eid)
    (List.filter (fun s => negb (String.eqb (entity_id s) other)) sts)
  = List.find (fun s => String.eqb (entity_id s) eid) sts.
Proof.
  intros Hne. induction sts as [|s sts IH]; simpl; [done|].
  destruct (String.eqb_spec (entity_id s) other) as [Hs|Hs]; simpl.
  - destruct (String.eqb_spec (entity_id s) eid) as [Heq|_]; [congruence|done].
  - by rewrite IH.
Qed.

Lemma states_get_write (published : State) (hass : HomeAssistant) :
  states_get (async_write_ha_state published hass) (entity_id published)
  = Some published
  ∧ ∀ eid, eid ≠ entity_id published →
           states_get (async_write_ha_state published hass) eid
           = states_get hass eid.
Proof.
  unfold states_get, async_write_ha_state. simpl. split.
  - by rewrite String.eqb_refl.
  - intros eid Hne.
    destruct (String.eqb_spec (entity_id published) eid) as [Heq|_];
      [congruence|].
    by apply find_filter_other.
Qed.

(** X21: a subscribed group that handles a notification publishes the
    aggregate it has just computed ("unknown" when it has none), with the
    assumed-state attribute exactly when its assumed flag is set, under its
    own entity id; the live state of every other entity is left as it
    was. *)
Theorem listener_publishes_aggregate (hass : HomeAssistant) (event : Event)
    (g : Group) :
  is_Some (_async_unsub_state_changed g) →
  ∃ hass' g',
    _async_state_changed_listener hass event g = Ok (hass', g')
    ∧ (∃ published,
         states_get hass' (group_entity_id g) = Some published
         ∧ entity_id published = group_entity_id g
         ∧ state published = default STATE_UNKNOWN (_state g')
         ∧ (attributes published !! ATTR_ASSUMED_STATE = Some true
            ↔ _assumed_state g' = true))
    ∧ ∀ eid, eid ≠ group_entity_id g →
             states_get hass' eid = states_get hass eid.
Proof.
  intros [h Hh]. unfold _async_state_changed_listener. rewrite Hh.
  match goal with
  | |- context [_async_update_group_state ?hs ?t ?x] =>
      destruct (update_group_state_fields hs t x)
        as (g' & -> & _ & _ & _ & _ & _ & _ & _ & _ & _ & Hid);
      assert (Hid' : group_entity_id g' = group_entity_id g)
  end.
  { rewrite Hid. destruct (ev_new_state event); [done|].
    by destruct (reset_frame hass (async_set_context (ev_context event) g))
      as (_ & _ & _ & _ & _ & _ & _ & _ & ->). }
  exists (write_group_state hass g'), g'. split; [done|].
  unfold write_group_state. rewrite Hid'.
  match goal with
  | |- context [async_write_ha_state ?p hass] =>
      destruct (states_get_write p hass) as [Hown Hother]
  end.
  simpl in Hown, Hother.
  split; [|exact Hother].
  eexists. split; [exact Hown|]. simpl. split; [done|]. split; [done|].
  unfold group_attributes. destruct (_assumed_state g'); simpl.
  - by rewrite lookup_singleton_eq.
  - by rewrite lookup_empty.
Qed.

Lemma listener_publishes_aggregate_witness :
  ∃ hass' g' published,
    _async_state_changed_listener lit_hass
      (mkEvent "light.a" (Some (light_a "off")) 3) started_single.2
    = Ok (hass', g')
    ∧ states_get hass' (group_entity_id started_single.2) = Some published
    ∧ state published = default STATE_UNKNOWN (_state g').
Proof.
  assert (Hsub : is_Some (_async_unsub_state_changed started_single.2)).
  { exists 1. vm_compute. reflexivity. }
  destruct (listener_publishes_aggregate lit_hass
              (mkEvent "light.a" (Some (light_a "off")) 3) started_single.2
              Hsub)
    as (hass' & g' & Hrun & (published & Hget & _ & Hstate & _) & _).
  exists hass', g', published.
  split; [exact Hrun|]. split; [exact Hget | exact Hstate].
Defined.

Section CommittedFacts.
Context {E : Type} `{GroupEntity.Impl E}.
Import GroupEntity.

(** X22: the committed path of a group entity waits for the host: while
    the host is not running a notification (its context aside) only updates
    the supported features, without recomputing the group state or
    publishing; once the
    host runs, the notification recomputes and publishes the calculated
    state under the entity's id, leaving every other live state as it was;
    in neither case is anything reported to a preview or any subscription
    changed. *)
Theorem committed_listener_defers (event : Event) (w : @World E) :
  let w' := committed_listener event w in
  let featured :=
    async_update_supported_features (ev_entity_id event) (ev_new_state event)
      (w_entity w) in
  w_reported w' = w_reported w
  ∧ subscriptions (w_hass w') = subscriptions (w_hass w)
  ∧ (is_running (w_hass w) = false →
     w_hass w' = w_hass w ∧ w_entity w' = featured)
  ∧ (is_running (w_hass w) = true →
     w_entity w' = async_update_group_state (w_hass w) featured
     ∧ states_get (w_hass w') (entity_id_of (w_entity w'))
       = Some (mkState (entity_id_of (w_entity w')) (domain_of (w_entity w'))
                 (cs_state (_async_calculate_state (w_entity w')))
                 (cs_attributes (_async_calculate_state (w_entity w'))))
     ∧ ∀ eid, eid ≠ entity_id_of (w_entity w') →
              states_get (w_hass w') eid = states_get (w_hass w) eid).
Proof.
  unfold committed_listener, async_defer_or_update_ha_state. simpl.
  destruct (is_running (w_hass w)) eqn:Hrun; simpl.
  - do 2 (split; [done|]). split; [done|]. intros _. split; [done|].
    match goal with
    | |- context [async_write_ha_state ?p ?hs] =>
        destruct (states_get_write p hs) as [Hown Hother]
    end.
    simpl in Hown, Hother. split; [exact Hown | exact Hother].
  - do 2 (split; [done|]). split; [done|]. done.
Qed.

End CommittedFacts.
